(** * Sidetree core: the Rooter batching pipeline and the DID cache

    A shallow embedding of [src/Rooter.ts] (class [Rooter]) and of the DID
    cache that follows it in the same source file (class [DidCacheImpl]),
    with the properties of both that the specification states.

    Conventions of the embedding:
    - a JavaScript [number] that counts blocks, transactions or batch
      positions is an integer of [Z];
    - a [Buffer] is a list of bytes, a [string] a [String.string];
    - an optional property ([x?: T]) is an [option T], [undefined] is [None];
    - a JavaScript [Map] is an insertion-ordered association list
      ([JsMap.t]), because [rollback] deletes entries while [forEach] walks
      them;
    - a method that may throw returns a [result]; a method that mutates
      [this] takes the object and returns the new one. *)

From Stdlib Require Import ZArith List Bool Lia Permutation.
From Stdlib Require Import Strings.String Strings.Ascii Strings.Byte.
Import ListNotations.

Local Open Scope string_scope.
Local Open Scope Z_scope.

(* ================================================================== *)
(** * Values shared by both classes *)

Definition Buffer := list byte.

(** [Buffer.from(s)] for a string: its bytes. *)
Definition Buffer_from (s : string) : Buffer := list_byte_of_string s.

(** JavaScript exceptions that the two classes raise or let through. *)
Inductive exn : Type :=
| Error (message : string)
| TypeError (message : string).

Definition result (A : Type) : Type := (exn + A)%type.
Definition ok {A : Type} (a : A) : result A := inr a.
Definition throw {A : Type} (e : exn) : result A := inl e.

Definition result_bind {A B : Type} (r : result A) (k : A -> result B) : result B :=
  match r with
  | inl e => inl e
  | inr a => k a
  end.

Notation "x <-? r ;; k" := (result_bind r (fun x => k))
  (at level 61, r at next level, right associativity).

(** Truthiness of an optional string, as tested by [if (s)]: [undefined]
    and the empty string are falsy. *)
Definition truthy (s : option string) : option string :=
  match s with
  | Some EmptyString => None
  | Some s' => Some s'
  | None => None
  end.

(* ================================================================== *)
(** * JavaScript [Map] with string keys *)

Module JsMap.
Section Defs.
Context {V : Type}.

(** Entries in insertion order. *)
Definition t : Type := list (string * V).

Definition empty : t := [].

Fixpoint get (key : string) (m : t) : option V :=
  match m with
  | [] => None
  | (k, v) :: rest => if String.eqb k key then Some v else get key rest
  end.

(** [set] keeps the position of a key that is present and appends a new
    key at the end. *)
Fixpoint set (key : string) (value : V) (m : t) : t :=
  match m with
  | [] => [(key, value)]
  | (k, v) :: rest =>
      if String.eqb k key then (k, value) :: rest
      else (k, v) :: set key value rest
  end.

Definition delete (key : string) (m : t) : t :=
  filter (fun kv => negb (String.eqb (fst kv) key)) m.

Definition keys (m : t) : list string := List.map fst m.

(** [forEach]: the callback receives (value, key, map), in this order,
    and may mutate the map and may throw.  The entries are visited in
    insertion order; an entry deleted before its turn is not visited.
    The callbacks of this program only delete, so the walk follows the
    keys present when it starts. *)
Fixpoint forEach_loop (callback : V -> string -> t -> option exn * t)
    (pending : list string) (m : t) : option exn * t :=
  match pending with
  | [] => (None, m)
  | key :: rest =>
      match get key m with
      | None => forEach_loop callback rest m
      | Some value =>
          match callback value key m with
          | (Some e, m') => (Some e, m')
          | (None, m') => forEach_loop callback rest m'
          end
      end
  end.

Definition forEach (callback : V -> string -> t -> option exn * t) (m : t)
  : option exn * t :=
  forEach_loop callback (keys m) m.

(** Two maps with the same content, whatever the insertion order. *)
Definition equiv (m1 m2 : t) : Prop := forall key, get key m1 = get key m2.
End Defs.
Arguments t : clear implicits.
End JsMap.

(* ================================================================== *)
(** * The DID cache *)

Definition VersionId := string.
Definition OperationHash := string.

Inductive OperationType : Type := Create | Update | Delete | Recover.

Definition OperationType_eqb (a b : OperationType) : bool :=
  match a, b with
  | Create, Create | Update, Update | Delete, Delete | Recover, Recover => true
  | _, _ => false
  end.

(** The properties of [WriteOperation] that this file reads. *)
Module WriteOperation.
Record t : Type := mk {
  operationBuffer : Buffer;
  type : OperationType;
  encodedPayload : string;
  previousOperationHash : option string;
  blockNumber : option Z;
  transactionNumber : option Z;
  operationIndex : option Z;
  batchFileHash : option string
}.
End WriteOperation.

Module OperationTimestamp.
Record t : Type := mk {
  blockNumber : Z;
  transactionNumber : Z;
  operationIndex : Z
}.
End OperationTimestamp.

Definition earlier (ts1 ts2 : OperationTimestamp.t) : bool :=
  (OperationTimestamp.transactionNumber ts1 <? OperationTimestamp.transactionNumber ts2)
  || ((OperationTimestamp.transactionNumber ts1 =? OperationTimestamp.transactionNumber ts2)
      && (OperationTimestamp.operationIndex ts1 <? OperationTimestamp.operationIndex ts2)).

Module OperationInfo.
Record t : Type := mk {
  batchFileHash : string;
  type : OperationType;
  timestamp : OperationTimestamp.t
}.
End OperationInfo.

(** The resolved transaction handed to [WriteOperation.create]. *)
Module ResolvedTransaction.
Record t : Type := mk {
  blockNumber : Z;
  transactionNumber : Z;
  anchorFileHash : string;
  batchFileHash : string
}.
End ResolvedTransaction.

(** The fields of [DidCacheImpl]. *)
Record DidCacheImpl : Type := mkDidCache {
  nextVersion : JsMap.t VersionId;
  opHashToInfo : JsMap.t OperationInfo.t
}.

Definition newDidCache : DidCacheImpl :=
  {| nextVersion := JsMap.empty; opHashToInfo := JsMap.empty |}.

(** The imported modules [Multihash] and [bs58]. *)
Class Crypto : Type := {
  Multihash_hash : Buffer -> Z -> Buffer;
  Base58_encode : Buffer -> string
}.

(** The imported CAS client, [BatchFile] and [WriteOperation.create], as
    [getOperation] uses them. *)
Class OperationStore : Type := {
  BatchFile : Type;
  cas_read : string -> result Buffer;
  BatchFile_fromBuffer : Buffer -> result BatchFile;
  BatchFile_getOperationBuffer : BatchFile -> Z -> result Buffer;
  WriteOperation_create : Buffer -> ResolvedTransaction.t -> Z -> result WriteOperation.t
}.

(** The imported [WriteOperation.toDidDocument] and [didDocumentUpdate],
    as [lookup] uses them. *)
Class DocumentOps : Type := {
  DidDocument : Type;
  WriteOperation_toDidDocument : WriteOperation.t -> string -> result DidDocument;
  didDocumentUpdate : DidDocument -> WriteOperation.t -> result DidDocument
}.

Section DidCache.
Context {crypto : Crypto}.

Definition sha256HashCode : Z := 18.

Definition getHash (operation : WriteOperation.t) : OperationHash :=
  let contentBuffer :=
    if OperationType_eqb (WriteOperation.type operation) Create
    then Buffer_from (WriteOperation.encodedPayload operation)
    else WriteOperation.operationBuffer operation in
  let multihash := Multihash_hash contentBuffer sha256HashCode in
  Base58_encode multihash.

(** [applyVersionChainUpdates]: reading [.timestamp] of an absent
    [OperationInfo] is a [TypeError]. *)
Definition applyVersionChainUpdates (opHash : OperationHash)
    (opInfo : OperationInfo.t) (prevVersionId : VersionId)
    (this : DidCacheImpl) : result unit * DidCacheImpl :=
  let update :=
    {| nextVersion := JsMap.set prevVersionId opHash (nextVersion this);
       opHashToInfo := opHashToInfo this |} in
  match JsMap.get prevVersionId (nextVersion this) with
  | Some curUpdateToPrevVersionId =>
      match JsMap.get curUpdateToPrevVersionId (opHashToInfo this) with
      | None => (throw (TypeError "timestamp of undefined"), this)
      | Some curUpdateToPrevVersionIdInfo =>
          if earlier (OperationInfo.timestamp curUpdateToPrevVersionIdInfo)
                     (OperationInfo.timestamp opInfo)
          then (ok tt, this)
          else (ok tt, update)
      end
  | None => (ok tt, update)
  end.

Definition apply (operation : WriteOperation.t) (this : DidCacheImpl)
  : result (option OperationHash) * DidCacheImpl :=
  let opHash := getHash operation in
  match WriteOperation.blockNumber operation with
  | None => (throw (Error "Invalid operation: blockNumber undefined"), this)
  | Some blockNumber =>
  match WriteOperation.transactionNumber operation with
  | None => (throw (Error "Invalid operation: transactionNumber undefined"), this)
  | Some transactionNumber =>
  match WriteOperation.operationIndex operation with
  | None => (throw (Error "Invalid operation: operationIndex undefined"), this)
  | Some operationIndex =>
  match WriteOperation.batchFileHash operation with
  | None => (throw (Error "Invalid operation: batchFileHash undefined"), this)
  | Some batchFileHash =>
      let opTimestamp :=
        OperationTimestamp.mk blockNumber transactionNumber operationIndex in
      let opInfo :=
        OperationInfo.mk batchFileHash (WriteOperation.type operation) opTimestamp in
      let prevOperationInfo := JsMap.get opHash (opHashToInfo this) in
      let duplicate :=
        match prevOperationInfo with
        | Some info => earlier (OperationInfo.timestamp info) (OperationInfo.timestamp opInfo)
        | None => false
        end in
      if duplicate then (ok None, this)
      else
        let this1 :=
          {| nextVersion := nextVersion this;
             opHashToInfo := JsMap.set opHash opInfo (opHashToInfo this) |} in
        match truthy (WriteOperation.previousOperationHash operation) with
        | Some prevVersionId =>
            match applyVersionChainUpdates opHash opInfo prevVersionId this1 with
            | (inl e, this2) => (inl e, this2)
            | (inr _, this2) => (ok (Some opHash), this2)
            end
        | None => (ok (Some opHash), this1)
        end
  end end end end.

(** [rollback].  [Map.prototype.forEach] calls back with (value, key,
    map): the callback's first parameter, which the source names
    [version], is the value of the entry and its second, named
    [nextVersion], is the key. *)
Definition rollback_nextVersion_callback (transactionNumber : Z)
    (this : DidCacheImpl) (version : VersionId) (nextVersion : VersionId)
    (map : JsMap.t VersionId) : option exn * JsMap.t VersionId :=
  match JsMap.get nextVersion (opHashToInfo this) with
  | None => (Some (TypeError "timestamp of undefined"), map)
  | Some opInfo =>
      if OperationTimestamp.transactionNumber (OperationInfo.timestamp opInfo)
         >=? transactionNumber
      then (None, JsMap.delete version map)
      else (None, map)
  end.

Definition rollback_opHashToInfo_callback (transactionNumber : Z)
    (opInfo : OperationInfo.t) (opHash : OperationHash)
    (map : JsMap.t OperationInfo.t) : option exn * JsMap.t OperationInfo.t :=
  if OperationTimestamp.transactionNumber (OperationInfo.timestamp opInfo)
     >=? transactionNumber
  then (None, JsMap.delete opHash map)
  else (None, map).

Definition rollback (transactionNumber : Z) (this : DidCacheImpl)
  : result unit * DidCacheImpl :=
  match JsMap.forEach (rollback_nextVersion_callback transactionNumber this)
                      (nextVersion this) with
  | (Some e, nextVersion') =>
      (throw e, {| nextVersion := nextVersion'; opHashToInfo := opHashToInfo this |})
  | (None, nextVersion') =>
      match JsMap.forEach (rollback_opHashToInfo_callback transactionNumber)
                          (opHashToInfo this) with
      | (Some e, opHashToInfo') =>
          (throw e, {| nextVersion := nextVersion'; opHashToInfo := opHashToInfo' |})
      | (None, opHashToInfo') =>
          (ok tt, {| nextVersion := nextVersion'; opHashToInfo := opHashToInfo' |})
      end
  end.

(** [next] is a plain lookup. *)
Definition next (versionId : VersionId) (this : DidCacheImpl) : option VersionId :=
  JsMap.get versionId (nextVersion this).

Context {store : OperationStore}.

Definition getOperation (opInfo : OperationInfo.t) : result WriteOperation.t :=
  batchBuffer <-? cas_read (OperationInfo.batchFileHash opInfo) ;;
  batchFile <-? BatchFile_fromBuffer batchBuffer ;;
  operationBuffer <-? BatchFile_getOperationBuffer batchFile
      (OperationTimestamp.operationIndex (OperationInfo.timestamp opInfo)) ;;
  let resolvedTransaction :=
    {| ResolvedTransaction.blockNumber :=
         OperationTimestamp.blockNumber (OperationInfo.timestamp opInfo);
       ResolvedTransaction.transactionNumber :=
         OperationTimestamp.transactionNumber (OperationInfo.timestamp opInfo);
       ResolvedTransaction.anchorFileHash := "TODO";
       ResolvedTransaction.batchFileHash := OperationInfo.batchFileHash opInfo |} in
  WriteOperation_create operationBuffer resolvedTransaction
    (OperationTimestamp.operationIndex (OperationInfo.timestamp opInfo)).

Definition previous (versionId : VersionId) (this : DidCacheImpl)
  : result (option VersionId) :=
  match JsMap.get versionId (opHashToInfo this) with
  | Some opInfo =>
      op <-? getOperation opInfo ;;
      ok (truthy (WriteOperation.previousOperationHash op))
  | None => ok None
  end.

(** The [while (true)] loop of [first]; [None] when [fuel] iterations do
    not reach the end of the chain. *)
Fixpoint first_loop (fuel : nat) (versionId : VersionId) (this : DidCacheImpl)
  : option (result (option VersionId)) :=
  match fuel with
  | O => None
  | S fuel' =>
      match previous versionId this with
      | inl e => Some (throw e)
      | inr None => Some (ok (Some versionId))
      | inr (Some prevVersionId) => first_loop fuel' prevVersionId this
      end
  end.

Definition first (fuel : nat) (versionId : VersionId) (this : DidCacheImpl)
  : option (result (option VersionId)) :=
  match JsMap.get versionId (opHashToInfo this) with
  | None => Some (ok None)
  | Some _ => first_loop fuel versionId this
  end.

(** The [while (true)] loop of [last]. *)
Fixpoint last_loop (fuel : nat) (versionId : VersionId) (this : DidCacheImpl)
  : option VersionId :=
  match fuel with
  | O => None
  | S fuel' =>
      match next versionId this with
      | None => Some versionId
      | Some nextVersionId => last_loop fuel' nextVersionId this
      end
  end.

Definition last (fuel : nat) (versionId : VersionId) (this : DidCacheImpl)
  : option (option VersionId) :=
  match JsMap.get versionId (opHashToInfo this) with
  | None => Some None
  | Some _ => option_map Some (last_loop fuel versionId this)
  end.
Context {docs : DocumentOps}.

Definition isInitialVersion (opInfo : OperationInfo.t) : bool :=
  OperationType_eqb (OperationInfo.type opInfo) Create.

(** [lookup], which calls itself on [op.previousOperationHash]; the cast
    [as VersionId] lets [undefined] through, for which [Map.get] finds
    nothing.  [None] when [fuel] calls do not reach the end of the chain.
    [didMethodName] is the constructor parameter of that name. *)
Fixpoint lookup (fuel : nat) (didMethodName : string) (versionId : option VersionId)
    (this : DidCacheImpl) : option (result (option DidDocument)) :=
  match fuel with
  | O => None
  | S fuel' =>
      let opInfo :=
        match versionId with
        | Some opHash => JsMap.get opHash (opHashToInfo this)
        | None => None
        end in
      match opInfo with
      | None => Some (ok None)
      | Some opInfo =>
          match getOperation opInfo with
          | inl e => Some (throw e)
          | inr op =>
              if isInitialVersion opInfo
              then Some (doc <-? WriteOperation_toDidDocument op didMethodName ;;
                         ok (Some doc))
              else
                match lookup fuel' didMethodName
                        (WriteOperation.previousOperationHash op) this with
                | None => None
                | Some (inl e) => Some (throw e)
                | Some (inr None) => Some (ok None)
                | Some (inr (Some prevDidDoc)) =>
                    Some (doc <-? didDocumentUpdate prevDidDoc op ;; ok (Some doc))
                end
          end
      end
  end.

(** [resolve]: [last], then [lookup]. *)
Definition resolve (fuel : nat) (didMethodName : string) (didUniquePortion : string)
    (this : DidCacheImpl) : option (result (option DidDocument)) :=
  match last fuel didUniquePortion this with
  | None => None
  | Some None => Some (ok None)
  | Some (Some latestVersion) => lookup fuel didMethodName (Some latestVersion) this
  end.

(** The versions from which [lookup] can build a document: a stored
    create, or a stored operation whose reconstructed form names a
    predecessor of that kind. *)
Inductive completeChain (this : DidCacheImpl) : VersionId -> Prop :=
| completeChain_root versionId opInfo :
    JsMap.get versionId (opHashToInfo this) = Some opInfo ->
    isInitialVersion opInfo = true ->
    completeChain this versionId
| completeChain_link versionId opInfo op prevVersion :
    JsMap.get versionId (opHashToInfo this) = Some opInfo ->
    isInitialVersion opInfo = false ->
    getOperation opInfo = ok op ->
    WriteOperation.previousOperationHash op = Some prevVersion ->
    completeChain this prevVersion ->
    completeChain this versionId.

End DidCache.

(* ================================================================== *)
(** * The Rooter *)

(** Modelled from the spec: the protocol parameters that [getProtocol]
    returns ([./Protocol] is imported, not defined, by the source):
    [maxOperationsPerBatch] is a positive integer and [hashAlgorithmCode]
    a multihash code. *)
Module Protocol.
Record t : Type := mk {
  maxOperationsPerBatch : nat;
  hashAlgorithmCode : Z
}.
End Protocol.

Module Block.
Record t : Type := mk { blockNumber : Z }.
End Block.

Module AnchorFile.
Record t : Type := mk { batchFileHash : string; merkleRoot : string }.
End AnchorFile.

(** A JavaScript array of buffers; a slot that was never assigned a
    buffer holds [undefined]. *)
Definition BufferArray := list (option Buffer).

(** [a[i] = x]: assignment past the end extends the array. *)
Fixpoint array_set (a : BufferArray) (i : nat) (x : option Buffer) : BufferArray :=
  match i, a with
  | O, [] => [x]
  | O, _ :: rest => x :: rest
  | S i', [] => None :: array_set [] i' x
  | S i', y :: rest => y :: array_set rest i' x
  end.

(** The imported modules [Protocol], [BatchFile], [MerkleTree] and the
    built-in [JSON.stringify], as [Rooter] uses them. *)
Class RooterImports : Type := {
  getProtocol : Z -> Protocol.t;
  BatchFile_fromOperations_toBuffer : BufferArray -> result Buffer;
  MerkleTree_create_rootHash : BufferArray -> result string;
  JSON_stringify : AnchorFile.t -> string
}.

(** What the blockchain and the CAS answer during one run of
    [rootOperations], and the buffers passed to [add] by other tasks while
    the run is suspended on each [await]. *)
Record TickEnv : Type := mkTickEnv {
  getLastBlock_response : result Block.t;
  getLastBlock_arrivals : list Buffer;
  cas_write_batch_response : Buffer -> result string;
  cas_write_batch_arrivals : list Buffer;
  cas_write_anchor_response : Buffer -> result string;
  cas_write_anchor_arrivals : list Buffer;
  blockchain_write_response : string -> result unit;
  blockchain_write_arrivals : list Buffer
}.

(** The fields of [Rooter] that change: the queue, oldest element first,
    and the flag. *)
Record Rooter : Type := mkRooter {
  operations : list Buffer;
  processing : bool
}.

Definition newRooter : Rooter := {| operations := []; processing := false |}.

(** [Deque.push] and [Deque.shift]. *)
Definition Deque_push (x : Buffer) (q : list Buffer) : list Buffer := q ++ [x].

Definition Deque_shift (q : list Buffer) : option Buffer * list Buffer :=
  match q with
  | [] => (None, [])
  | x :: rest => (Some x, rest)
  end.

Definition add (operation : Buffer) (this : Rooter) : Rooter :=
  {| operations := Deque_push operation (operations this);
     processing := processing this |}.

Definition getOperationQueueLength (this : Rooter) : nat :=
  List.length (operations this).

(** How a block of statements ends. *)
Inductive outcome (A : Type) : Type :=
| Normal (a : A)
| Returned
| Thrown (e : exn).
Arguments Normal {A} a.
Arguments Returned {A}.
Arguments Thrown {A} e.

(** Statements of a method of [Rooter]. *)
Definition M (A : Type) : Type := Rooter -> outcome A * Rooter.

Definition ret {A : Type} (a : A) : M A := fun this => (Normal a, this).

Definition bind {A B : Type} (m : M A) (k : A -> M B) : M B :=
  fun this =>
    match m this with
    | (Normal a, this') => k a this'
    | (Returned, this') => (Returned, this')
    | (Thrown e, this') => (Thrown e, this')
    end.

Notation "x <- m ;; k" := (bind m (fun x => k))
  (at level 61, m at next level, right associativity).
Notation "m ;;; k" := (bind m (fun _ => k))
  (at level 61, right associativity).

Definition return_ {A : Type} : M A := fun this => (Returned, this).

Definition lift {A : Type} (r : result A) : M A :=
  fun this =>
    match r with
    | inl e => (Thrown e, this)
    | inr a => (Normal a, this)
    end.

Definition set_processing (b : bool) : M unit :=
  fun this => (Normal tt, {| operations := operations this; processing := b |}).

(** [await call]: the run is suspended, other tasks call [add], then the
    call settles.  A tick started meanwhile finds [processing] set and
    returns at once, so it leaves the fields as they are. *)
Definition await {A : Type} (response : result A) (arrivals : list Buffer) : M A :=
  fun this => lift response (fold_left (fun r x => add x r) arrivals this).

(** [try { body } catch (e) { handler } finally { finalizer }]. *)
Definition try_catch_finally {A : Type} (body : M A) (handler : exn -> M A)
    (finalizer : M unit) : M A :=
  fun this =>
    let (o1, this1) := body this in
    let (o2, this2) :=
      match o1 with
      | Thrown e => handler e this1
      | _ => (o1, this1)
      end in
    match finalizer this2 with
    | (Normal _, this3) => (o2, this3)
    | (Returned, this3) => (Returned, this3)
    | (Thrown e, this3) => (Thrown e, this3)
    end.

Section RooterMethods.
Context {imports : RooterImports}.

(** The [while (count < batchSize)] loop; [remaining] is
    [batchSize - count]. *)
Fixpoint getBatch_loop (remaining count : nat) (batch : BufferArray)
    (queue : list Buffer) : BufferArray * list Buffer :=
  match remaining with
  | O => (batch, queue)
  | S remaining' =>
      let (x, queue') := Deque_shift queue in
      getBatch_loop remaining' (S count) (array_set batch count x) queue'
  end.

(** The statements of [getBatch] after [getLastBlock] has answered. *)
Definition getBatch_drain (latestBlock : Block.t) : M BufferArray :=
  fun this =>
    let protocol := getProtocol (Block.blockNumber latestBlock + 1) in
    let queueSize := List.length (operations this) in
    let batchSize :=
      if Nat.ltb (Protocol.maxOperationsPerBatch protocol) queueSize
      then Protocol.maxOperationsPerBatch protocol
      else queueSize in
    let batch := repeat None batchSize in
    let (batch', queue') := getBatch_loop batchSize 0 batch (operations this) in
    (Normal batch', {| operations := queue'; processing := processing this |}).

Definition getBatch (env : TickEnv) : M BufferArray :=
  latestBlock <- await (getLastBlock_response env) (getLastBlock_arrivals env) ;;
  getBatch_drain latestBlock.

(** The statements of the [try] block of [rootOperations] that follow
    the call of [getBatch]; the calls of [console.info] are left out. *)
Definition rootOperations_anchor (env : TickEnv) (batch : BufferArray) : M unit :=
  if Nat.eqb (List.length batch) 0 then return_
  else
    batchBuffer <- lift (BatchFile_fromOperations_toBuffer batch) ;;
    batchFileHash <- await (cas_write_batch_response env batchBuffer)
                           (cas_write_batch_arrivals env) ;;
    merkleRoot <- lift (MerkleTree_create_rootHash batch) ;;
    let anchorFile :=
      {| AnchorFile.batchFileHash := batchFileHash;
         AnchorFile.merkleRoot := merkleRoot |} in
    let anchorFileJsonBuffer := Buffer_from (JSON_stringify anchorFile) in
    anchorFileAddress <- await (cas_write_anchor_response env anchorFileJsonBuffer)
                               (cas_write_anchor_arrivals env) ;;
    await (blockchain_write_response env anchorFileAddress)
          (blockchain_write_arrivals env).

(** The [try] block of [rootOperations]. *)
Definition rootOperations_body (env : TickEnv) : M unit :=
  set_processing true ;;;
  batch <- getBatch env ;;
  rootOperations_anchor env batch.

Definition rootOperations (env : TickEnv) : M unit :=
  fun this =>
    if processing this then (Returned, this)
    else
      try_catch_finally
        (rootOperations_body env)
        (fun e => ret tt)
        (set_processing false)
        this.
(** The size of the batch drained from [queue] when the ledger is at
    [latestBlock]. *)
Definition batchSizeFor (latestBlock : Block.t) (queue : list Buffer) : nat :=
  Nat.min (List.length queue)
    (Protocol.maxOperationsPerBatch (getProtocol (Block.blockNumber latestBlock + 1))).

End RooterMethods.

(* ================================================================== *)
(** * Sequences of calls *)

Section Runs.
Context {crypto : Crypto}.

(** The cache after a sequence of [apply] calls; a call that throws is
    caught by the caller and the run goes on with the cache as the call
    left it. *)
Definition applyAll (ops : list WriteOperation.t) (this : DidCacheImpl) : DidCacheImpl :=
  fold_left (fun cache op => snd (apply op cache)) ops this.

(** The timestamp that [apply] builds for an operation that carries all
    four required properties. *)
Definition timestampOf (operation : WriteOperation.t) : option OperationTimestamp.t :=
  match WriteOperation.blockNumber operation,
        WriteOperation.transactionNumber operation,
        WriteOperation.operationIndex operation,
        WriteOperation.batchFileHash operation with
  | Some blockNumber, Some transactionNumber, Some operationIndex, Some _ =>
      Some (OperationTimestamp.mk blockNumber transactionNumber operationIndex)
  | _, _, _, _ => None
  end.

(** The [OperationInfo] that [apply] builds for such an operation. *)
Definition infoOf (operation : WriteOperation.t) : option OperationInfo.t :=
  match timestampOf operation, WriteOperation.batchFileHash operation with
  | Some ts, Some batchFileHash =>
      Some (OperationInfo.mk batchFileHash (WriteOperation.type operation) ts)
  | _, _ => None
  end.

(** The predecessor that [apply] links an operation to. *)
Definition chainPrev (operation : WriteOperation.t) : option VersionId :=
  truthy (WriteOperation.previousOperationHash operation).

(** Operations are told apart by their hash: two operations of the
    sequence with one hash name one predecessor. *)
Definition hashDeterminesPrev (ops : list WriteOperation.t) : Prop :=
  forall o1 o2, In o1 ops -> In o2 ops ->
    getHash o1 = getHash o2 -> chainPrev o1 = chainPrev o2.

(** The statements of [apply] past the four checks, for an operation
    whose record is [opInfo]; [apply_valid] below shows that [apply] runs
    exactly these. *)
Definition apply_checked (op : WriteOperation.t) (opInfo : OperationInfo.t)
    (this : DidCacheImpl) : result (option OperationHash) * DidCacheImpl :=
  let duplicate :=
    match JsMap.get (getHash op) (opHashToInfo this) with
    | Some info => earlier (OperationInfo.timestamp info) (OperationInfo.timestamp opInfo)
    | None => false
    end in
  if duplicate then (ok None, this)
  else
    let this1 :=
      {| nextVersion := nextVersion this;
         opHashToInfo := JsMap.set (getHash op) opInfo (opHashToInfo this) |} in
    match chainPrev op with
    | Some prevVersionId =>
        match applyVersionChainUpdates (getHash op) opInfo prevVersionId this1 with
        | (inl e, this2) => (inl e, this2)
        | (inr _, this2) => (ok (Some (getHash op)), this2)
        end
    | None => (ok (Some (getHash op)), this1)
    end.

(** Some call of the sequence applied an operation with hash [h] at
    timestamp [ts]. *)
Definition appliedAt (ops : list WriteOperation.t) (h : OperationHash)
    (ts : OperationTimestamp.t) : Prop :=
  exists op, In op ops /\ getHash op = h /\ timestampOf op = Some ts.

(** What [opHashToInfo] holds after the calls [ops]: for each hash the
    record of one of its calls, none of which is earlier. *)
Definition Earliest (ops : list WriteOperation.t) (this : DidCacheImpl) : Prop :=
  (forall h info, JsMap.get h (opHashToInfo this) = Some info ->
     (exists op, In op ops /\ getHash op = h /\ infoOf op = Some info)
     /\ (forall ts, appliedAt ops h ts -> earlier ts (OperationInfo.timestamp info) = false))
  /\ (forall h ts, appliedAt ops h ts ->
      exists info, JsMap.get h (opHashToInfo this) = Some info).

(** What [nextVersion] holds after the calls [ops]. *)
Definition ForkResolved (ops : list WriteOperation.t) (this : DidCacheImpl) : Prop :=
  (forall prev next, JsMap.get prev (nextVersion this) = Some next ->
     (exists op, In op ops /\ getHash op = next /\ chainPrev op = Some prev
                 /\ timestampOf op <> None)
     /\ (exists info, JsMap.get next (opHashToInfo this) = Some info
         /\ forall op ts, In op ops -> chainPrev op = Some prev ->
              timestampOf op = Some ts ->
              earlier ts (OperationInfo.timestamp info) = false))
  /\ (forall op ts prev, In op ops -> timestampOf op = Some ts ->
      chainPrev op = Some prev ->
      exists next, JsMap.get prev (nextVersion this) = Some next).

(** The operations of a sequence that [rollback T] is meant to prune. *)
Definition prunedBy (T : Z) (ops : list WriteOperation.t) : list WriteOperation.t :=
  filter (fun op =>
            match WriteOperation.transactionNumber op with
            | Some transactionNumber => transactionNumber >=? T
            | None => false
            end) ops.

(** The sequence is in non-decreasing (transactionNumber, operationIndex)
    order. *)
Fixpoint inLedgerOrder (ops : list WriteOperation.t) : bool :=
  match ops with
  | [] => true
  | op :: rest =>
      match rest with
      | [] => true
      | op' :: _ =>
          match timestampOf op, timestampOf op' with
          | Some ts, Some ts' => negb (earlier ts' ts) && inLedgerOrder rest
          | _, _ => false
          end
      end
  end.

(** [rollback T] followed by the calls that it pruned, in their order. *)
Definition rollbackAndReplay (T : Z) (ops : list WriteOperation.t) : DidCacheImpl :=
  applyAll (prunedBy T ops) (snd (rollback T (applyAll ops newDidCache))).

End Runs.

(** The errors that [apply] raises itself carry a message that starts
    with [Invalid operation]. *)
Definition InvalidOperation (e : exn) : bool :=
  match e with
  | Error message => String.prefix "Invalid operation: " message
  | TypeError _ => false
  end.

(** Every version that [nextVersion] points to has an [OperationInfo]. *)
Definition nextVersionClosed (this : DidCacheImpl) : Prop :=
  forall prev next, JsMap.get prev (nextVersion this) = Some next ->
    exists info, JsMap.get next (opHashToInfo this) = Some info.

(** Every version that has an entry in [nextVersion] has an
    [OperationInfo] itself. *)
Definition predecessorsStored (this : DidCacheImpl) : bool :=
  forallb (fun entry =>
             match JsMap.get (fst entry) (opHashToInfo this) with
             | Some _ => true
             | None => false
             end) (nextVersion this).

(** Every record of [opHashToInfo] has a transaction number below [T]. *)
Definition allBelow (T : Z) (this : DidCacheImpl) : bool :=
  forallb (fun entry =>
             OperationTimestamp.transactionNumber (OperationInfo.timestamp (snd entry)) <? T)
          (opHashToInfo this).

(** [ts1] is not later than [ts2] in the order of [earlier]. *)
Definition notLater (ts1 ts2 : OperationTimestamp.t) : Prop :=
  earlier ts2 ts1 = false.

(* ================================================================== *)
(** * Sample instances of the imported modules, for concrete runs *)

Module Sample.

Definition code_byte (code : Z) : byte :=
  match Byte.of_N (Z.to_N code) with
  | Some b => b
  | None => x00
  end.

(** A stand-in multihash that keeps the algorithm code in front of the
    content instead of a digest, and an encoding that keeps the bytes. *)
Definition crypto : Crypto :=
  {| Multihash_hash := fun content code => code_byte code :: content;
     Base58_encode := string_of_list_byte |}.

Definition tag_of_type (ty : OperationType) : byte :=
  match ty with
  | Create => "C"%byte
  | Update => "U"%byte
  | Delete => "D"%byte
  | Recover => "R"%byte
  end.

Definition type_of_tag (b : byte) : option OperationType :=
  if Byte.eqb b "C"%byte then Some Create
  else if Byte.eqb b "U"%byte then Some Update
  else if Byte.eqb b "D"%byte then Some Delete
  else if Byte.eqb b "R"%byte then Some Recover
  else None.

(** A stand-in wire format: one byte for the type, then the payload of a
    create or the previous operation hash of any other operation. *)
Definition create (operationBuffer : Buffer) (tx : ResolvedTransaction.t)
    (operationIndex : Z) : result WriteOperation.t :=
  match operationBuffer with
  | [] => throw (Error "empty operation buffer")
  | tag :: body =>
      match type_of_tag tag with
      | None => throw (Error "unknown operation type")
      | Some ty =>
          ok {| WriteOperation.operationBuffer := operationBuffer;
                WriteOperation.type := ty;
                WriteOperation.encodedPayload := string_of_list_byte body;
                WriteOperation.previousOperationHash :=
                  match ty with
                  | Create => None
                  | _ => Some (string_of_list_byte body)
                  end;
                WriteOperation.blockNumber := Some (ResolvedTransaction.blockNumber tx);
                WriteOperation.transactionNumber :=
                  Some (ResolvedTransaction.transactionNumber tx);
                WriteOperation.operationIndex := Some operationIndex;
                WriteOperation.batchFileHash := Some (ResolvedTransaction.batchFileHash tx) |}
      end
  end.

(** A store in which a batch file holds one operation and is filed under
    its own bytes. *)
Definition store : OperationStore :=
  {| BatchFile := list Buffer;
     cas_read := fun hash => ok (list_byte_of_string hash);
     BatchFile_fromBuffer := fun buffer => ok [buffer];
     BatchFile_getOperationBuffer := fun batchFile i =>
       if i <? 0 then throw (Error "index out of range")
       else match nth_error batchFile (Z.to_nat i) with
            | Some b => ok b
            | None => throw (Error "index out of range")
            end;
     WriteOperation_create := create |}.

(** The operation of type [ty] with the given payload or predecessor,
    anchored at (transactionNumber, operationIndex). *)
Definition operation (ty : OperationType) (body : string)
    (blockNumber transactionNumber operationIndex : Z) : WriteOperation.t :=
  let buffer := tag_of_type ty :: list_byte_of_string body in
  {| WriteOperation.operationBuffer := buffer;
     WriteOperation.type := ty;
     WriteOperation.encodedPayload := body;
     WriteOperation.previousOperationHash :=
       match ty with
       | Create => None
       | _ => Some body
       end;
     WriteOperation.blockNumber := Some blockNumber;
     WriteOperation.transactionNumber := Some transactionNumber;
     WriteOperation.operationIndex := Some operationIndex;
     WriteOperation.batchFileHash := Some (string_of_list_byte buffer) |}.

(** Documents stand-ins: the payload of the create under the method
    name, followed by one mark for each later operation. *)
Definition docs : DocumentOps :=
  {| DidDocument := string;
     WriteOperation_toDidDocument := fun op didMethodName =>
       ok (didMethodName ++ ":" ++ WriteOperation.encodedPayload op);
     didDocumentUpdate := fun doc op => ok (doc ++ "+") |}.

Definition hash (op : WriteOperation.t) : OperationHash := getHash (crypto := crypto) op.

(** Scenarios 5 and 6 of the specification: a create [C], two updates of
    [C] in transaction 10, and an update [U3] of [U1] in transaction 12. *)
Definition C : WriteOperation.t := operation Create "did-document" 1 1 0.
Definition U1 : WriteOperation.t := operation Update (hash C) 10 10 0.
Definition U2 : WriteOperation.t := operation Recover (hash C) 10 10 1.
Definition U3 : WriteOperation.t := operation Update (hash U1) 12 12 0.

Definition scenario6 : DidCacheImpl :=
  applyAll (crypto := crypto) [C; U1; U2; U3] newDidCache.

(** A chain anchored in the reverse order of its links: [NN] updates [N],
    [N] updates [P], and [P] is anchored last. *)
Definition P : WriteOperation.t := operation Create "other-document" 12 12 0.
Definition N : WriteOperation.t := operation Update (hash P) 2 2 0.
Definition NN : WriteOperation.t := operation Update (hash N) 1 1 0.

Definition reversedChain : DidCacheImpl :=
  applyAll (crypto := crypto) [NN; N; P] newDidCache.

(** An update whose predecessor was never applied. *)
Definition orphan : WriteOperation.t := operation Update "unknown-version" 10 10 0.

Definition orphanCache : DidCacheImpl :=
  applyAll (crypto := crypto) [orphan] newDidCache.

(** Two operations on [C] anchored at the same position. *)
Definition A1 : WriteOperation.t := operation Update (hash C) 10 10 0.
Definition B1 : WriteOperation.t := operation Delete (hash C) 10 10 0.

Definition tiedCache : DidCacheImpl :=
  applyAll (crypto := crypto) [C; A1; B1] newDidCache.

(** [A1] filed under another batch. *)
Definition A1_rebatched : WriteOperation.t :=
  {| WriteOperation.operationBuffer := WriteOperation.operationBuffer A1;
     WriteOperation.type := Update;
     WriteOperation.encodedPayload := WriteOperation.encodedPayload A1;
     WriteOperation.previousOperationHash := Some (hash C);
     WriteOperation.blockNumber := Some 10;
     WriteOperation.transactionNumber := Some 10;
     WriteOperation.operationIndex := Some 0;
     WriteOperation.batchFileHash := Some "other-batch" |}.

(** An update that carries an empty [previousOperationHash]. *)
Definition rootless : WriteOperation.t :=
  {| WriteOperation.operationBuffer := Buffer_from "U";
     WriteOperation.type := Update;
     WriteOperation.encodedPayload := EmptyString;
     WriteOperation.previousOperationHash := Some EmptyString;
     WriteOperation.blockNumber := Some 30;
     WriteOperation.transactionNumber := Some 30;
     WriteOperation.operationIndex := Some 0;
     WriteOperation.batchFileHash := Some "U" |}.

(** A protocol table that moves to another hash algorithm at block 100,
    and the other imports of the Rooter. *)
Definition imports : RooterImports :=
  {| getProtocol := fun blockNumber =>
       {| Protocol.maxOperationsPerBatch := 2;
          Protocol.hashAlgorithmCode := if blockNumber <? 100 then 18 else 22 |};
     BatchFile_fromOperations_toBuffer := fun batch =>
       ok (List.concat (List.map (fun x => match x with Some b => b | None => [] end) batch));
     MerkleTree_create_rootHash := fun _ => ok "root";
     JSON_stringify := fun anchorFile =>
       AnchorFile.batchFileHash anchorFile ++ "," ++ AnchorFile.merkleRoot anchorFile |}.

(** An operation that was not resolved against a transaction. *)
Definition unanchored : WriteOperation.t :=
  {| WriteOperation.operationBuffer := WriteOperation.operationBuffer U1;
     WriteOperation.type := Update;
     WriteOperation.encodedPayload := WriteOperation.encodedPayload U1;
     WriteOperation.previousOperationHash := Some (hash C);
     WriteOperation.blockNumber := Some 10;
     WriteOperation.transactionNumber := None;
     WriteOperation.operationIndex := Some 0;
     WriteOperation.batchFileHash := None |}.

Definition late : WriteOperation.t := operation Update (hash C) 150 20 0.

(** A tick in which the ledger answers and the first CAS write fails. *)
Definition casDown : TickEnv :=
  {| getLastBlock_response := ok (Block.mk 7);
     getLastBlock_arrivals := [];
     cas_write_batch_response := fun _ => throw (Error "CAS unavailable");
     cas_write_batch_arrivals := [Buffer_from "late"];
     cas_write_anchor_response := fun _ => ok "anchor-address";
     cas_write_anchor_arrivals := [];
     blockchain_write_response := fun _ => ok tt;
     blockchain_write_arrivals := [] |}.

(** A tick in which the ledger does not answer. *)
Definition ledgerDown : TickEnv :=
  {| getLastBlock_response := throw (Error "ledger unavailable");
     getLastBlock_arrivals := [Buffer_from "late"];
     cas_write_batch_response := fun _ => ok "batch-address";
     cas_write_batch_arrivals := [];
     cas_write_anchor_response := fun _ => ok "anchor-address";
     cas_write_anchor_arrivals := [];
     blockchain_write_response := fun _ => ok tt;
     blockchain_write_arrivals := [] |}.

(** A tick that finds nothing to batch. *)
Definition quiet : TickEnv :=
  {| getLastBlock_response := ok (Block.mk 7);
     getLastBlock_arrivals := [];
     cas_write_batch_response := fun _ => throw (Error "CAS unavailable");
     cas_write_batch_arrivals := [Buffer_from "late"];
     cas_write_anchor_response := fun _ => throw (Error "CAS unavailable");
     cas_write_anchor_arrivals := [];
     blockchain_write_response := fun _ => throw (Error "ledger unavailable");
     blockchain_write_arrivals := [] |}.

Definition threeQueued : Rooter :=
  add (Buffer_from "c") (add (Buffer_from "b") (add (Buffer_from "a") newRooter)).

End Sample.

(* ================================================================== *)
(** * Facts about [JsMap] *)

Section JsMapFacts.
Context {V : Type}.
Implicit Types (m : JsMap.t V) (k : string) (v : V).

Lemma JsMap_get_set_eq m k v : JsMap.get k (JsMap.set k v m) = Some v.
Proof.
  induction m as [|[k' v'] m IH]; simpl.
  - now rewrite String.eqb_refl.
  - destruct (String.eqb k' k) eqn:E; simpl; rewrite E; auto.
Qed.

Lemma JsMap_get_set_neq m k k' v :
  k <> k' -> JsMap.get k' (JsMap.set k v m) = JsMap.get k' m.
Proof.
  intros Hne. induction m as [|[k0 v0] m IH]; simpl.
  - destruct (String.eqb k k') eqn:E; auto.
    apply String.eqb_eq in E. contradiction.
  - destruct (String.eqb k0 k) eqn:E; simpl.
    + apply String.eqb_eq in E. subst k0.
      destruct (String.eqb k k') eqn:E'; auto.
      apply String.eqb_eq in E'. contradiction.
    + now rewrite IH.
Qed.

Lemma JsMap_get_set m k k' v :
  JsMap.get k' (JsMap.set k v m) = if String.eqb k k' then Some v else JsMap.get k' m.
Proof.
  destruct (String.eqb k k') eqn:E.
  - apply String.eqb_eq in E. subst. apply JsMap_get_set_eq.
  - apply String.eqb_neq in E. now apply JsMap_get_set_neq.
Qed.

Lemma JsMap_set_same m k v : JsMap.get k m = Some v -> JsMap.set k v m = m.
Proof.
  induction m as [|[k0 v0] m IH]; simpl; [discriminate|].
  destruct (String.eqb k0 k) eqn:E; intros H.
  - now inversion H.
  - now rewrite IH.
Qed.

Lemma JsMap_get_delete m k k' :
  JsMap.get k' (JsMap.delete k m) = if String.eqb k k' then None else JsMap.get k' m.
Proof.
  unfold JsMap.delete.
  induction m as [|[k0 v0] m IH]; simpl.
  - now destruct (String.eqb k k').
  - destruct (String.eqb k0 k) eqn:E; simpl.
    + apply String.eqb_eq in E. subst k0. rewrite IH.
      now destruct (String.eqb k k').
    + rewrite IH. destruct (String.eqb k0 k') eqn:E'; auto.
      apply String.eqb_eq in E'. subst k0.
      rewrite String.eqb_sym in E. now rewrite E.
Qed.
End JsMapFacts.

(* ================================================================== *)
(** * The order of timestamps *)

Lemma earlier_true ts1 ts2 :
  earlier ts1 ts2 = true <->
  (OperationTimestamp.transactionNumber ts1 < OperationTimestamp.transactionNumber ts2
   \/ (OperationTimestamp.transactionNumber ts1 = OperationTimestamp.transactionNumber ts2
       /\ OperationTimestamp.operationIndex ts1 < OperationTimestamp.operationIndex ts2)).
Proof.
  unfold earlier.
  rewrite orb_true_iff, andb_true_iff, !Z.ltb_lt, Z.eqb_eq. tauto.
Qed.

Lemma earlier_false ts1 ts2 :
  earlier ts1 ts2 = false <->
  (OperationTimestamp.transactionNumber ts2 < OperationTimestamp.transactionNumber ts1
   \/ (OperationTimestamp.transactionNumber ts1 = OperationTimestamp.transactionNumber ts2
       /\ OperationTimestamp.operationIndex ts2 <= OperationTimestamp.operationIndex ts1)).
Proof.
  unfold earlier.
  rewrite orb_false_iff, andb_false_iff, !Z.ltb_ge, Z.eqb_neq. lia.
Qed.

Ltac order_timestamps :=
  unfold notLater in *;
  repeat match goal with
  | H : earlier _ _ = true |- _ => apply earlier_true in H
  | H : earlier _ _ = false |- _ => apply earlier_false in H
  | |- earlier _ _ = true => apply earlier_true
  | |- earlier _ _ = false => apply earlier_false
  end;
  lia.

Lemma earlier_irrefl ts : earlier ts ts = false.
Proof. order_timestamps. Qed.

Lemma notLater_trans ts1 ts2 ts3 :
  notLater ts1 ts2 -> notLater ts2 ts3 -> notLater ts1 ts3.
Proof. intros H1 H2. order_timestamps. Qed.

Lemma earlier_notLater ts1 ts2 : earlier ts1 ts2 = true -> notLater ts1 ts2.
Proof. intros H. order_timestamps. Qed.

Lemma earlier_notLater_trans ts1 ts2 ts3 :
  earlier ts1 ts2 = true -> notLater ts3 ts1 -> notLater ts3 ts2.
Proof. intros H1 H2. order_timestamps. Qed.

(* ================================================================== *)
(** * [apply], one call *)

Section ApplyFacts.
Context {crypto : Crypto}.

Lemma timestampOf_None op :
  timestampOf op = None <->
  (WriteOperation.blockNumber op = None \/ WriteOperation.transactionNumber op = None
   \/ WriteOperation.operationIndex op = None \/ WriteOperation.batchFileHash op = None).
Proof.
  unfold timestampOf.
  destruct (WriteOperation.blockNumber op), (WriteOperation.transactionNumber op),
    (WriteOperation.operationIndex op), (WriteOperation.batchFileHash op);
    split; intros H; try discriminate; auto;
    repeat (destruct H as [H|H]; try discriminate).
Qed.

Lemma infoOf_timestampOf op info :
  infoOf op = Some info -> timestampOf op = Some (OperationInfo.timestamp info).
Proof.
  unfold infoOf. destruct (timestampOf op); [|discriminate].
  destruct (WriteOperation.batchFileHash op); [|discriminate].
  now intros [= <-].
Qed.

Lemma timestampOf_infoOf op ts :
  timestampOf op = Some ts ->
  exists info, infoOf op = Some info /\ OperationInfo.timestamp info = ts.
Proof.
  unfold infoOf. intros H. rewrite H.
  unfold timestampOf in H.
  destruct (WriteOperation.blockNumber op), (WriteOperation.transactionNumber op),
    (WriteOperation.operationIndex op), (WriteOperation.batchFileHash op);
    try discriminate.
  eexists. split; reflexivity.
Qed.

(** An operation that lacks a required property is refused and the cache
    is left as it was. *)
Lemma apply_invalid op this :
  timestampOf op = None ->
  exists e, apply op this = (throw e, this) /\ InvalidOperation e = true.
Proof.
  unfold timestampOf, apply.
  destruct (WriteOperation.blockNumber op); [|eexists; split; reflexivity].
  destruct (WriteOperation.transactionNumber op); [|eexists; split; reflexivity].
  destruct (WriteOperation.operationIndex op); [|eexists; split; reflexivity].
  destruct (WriteOperation.batchFileHash op); [discriminate|eexists; split; reflexivity].
Qed.

Lemma apply_valid op opInfo this :
  infoOf op = Some opInfo -> apply op this = apply_checked op opInfo this.
Proof.
  unfold infoOf, timestampOf, apply, apply_checked, chainPrev.
  destruct (WriteOperation.blockNumber op); [|discriminate].
  destruct (WriteOperation.transactionNumber op); [|discriminate].
  destruct (WriteOperation.operationIndex op); [|discriminate].
  destruct (WriteOperation.batchFileHash op); [|discriminate].
  now intros [= <-].
Qed.

Lemma applyVersionChainUpdates_throws opHash opInfo prev this e this' :
  applyVersionChainUpdates opHash opInfo prev this = (throw e, this') ->
  InvalidOperation e = false.
Proof.
  unfold applyVersionChainUpdates.
  destruct (JsMap.get prev (nextVersion this)) as [cur|]; [|discriminate].
  destruct (JsMap.get cur (opHashToInfo this)) as [curInfo|].
  - destruct (earlier _ _); discriminate.
  - now intros [= <- _].
Qed.

Lemma apply_checked_throws op opInfo this e :
  fst (apply_checked op opInfo this) = throw e -> InvalidOperation e = false.
Proof.
  unfold apply_checked.
  destruct (match JsMap.get (getHash op) (opHashToInfo this) with
            | Some _ => _ | None => _ end); [discriminate|].
  destruct (chainPrev op) as [prev|]; [|discriminate].
  destruct (applyVersionChainUpdates _ _ _ _) as [[e'|[]] this2] eqn:E; [|discriminate].
  simpl. intros [= ->]. eapply applyVersionChainUpdates_throws, E.
Qed.

(** C7.  [apply] throws an invalid-operation error exactly when one of
    [blockNumber], [transactionNumber], [operationIndex], [batchFileHash]
    is undefined on the operation, and then both maps are as they were. *)
Theorem apply_error_contract (op : WriteOperation.t) (this : DidCacheImpl) :
  ((exists e, fst (apply op this) = throw e /\ InvalidOperation e = true) <->
   (WriteOperation.blockNumber op = None \/ WriteOperation.transactionNumber op = None
    \/ WriteOperation.operationIndex op = None \/ WriteOperation.batchFileHash op = None))
  /\ (forall e, fst (apply op this) = throw e -> InvalidOperation e = true ->
      snd (apply op this) = this).
Proof.
  rewrite <- timestampOf_None.
  destruct (timestampOf op) as [ts|] eqn:Hts.
  - destruct (timestampOf_infoOf _ _ Hts) as (opInfo & Hinfo & _).
    rewrite (apply_valid _ _ _ Hinfo).
    split; [split|].
    + intros (e & He & Hinv).
      apply apply_checked_throws in He. congruence.
    + discriminate.
    + intros e He Hinv. apply apply_checked_throws in He. congruence.
  - destruct (apply_invalid op this Hts) as (e & Happly & Hinv).
    rewrite Happly. split; [split|]; auto.
    intros _. exists e. auto.
Qed.

End ApplyFacts.

Lemma apply_error_contract_witness :
  (exists e, fst (apply (crypto := Sample.crypto) Sample.unanchored Sample.scenario6) = throw e
             /\ InvalidOperation e = true)
  /\ snd (apply (crypto := Sample.crypto) Sample.unanchored Sample.scenario6) = Sample.scenario6.
Proof.
  pose proof (apply_error_contract (crypto := Sample.crypto)
                Sample.unanchored Sample.scenario6) as [Hiff Hframe].
  assert (Hthrows : exists e,
             fst (apply (crypto := Sample.crypto) Sample.unanchored Sample.scenario6) = throw e
             /\ InvalidOperation e = true).
  { apply Hiff. right. left. reflexivity. }
  split; [exact Hthrows|].
  destruct Hthrows as (e & He & Hinv). exact (Hframe e He Hinv).
Defined.

(* ================================================================== *)
(** * [apply], sequences of calls *)

Section ApplyRuns.
Context {crypto : Crypto}.

Lemma applyAll_snoc ops op this :
  applyAll (ops ++ [op]) this = snd (apply op (applyAll ops this)).
Proof. unfold applyAll. now rewrite fold_left_app. Qed.

Lemma chainPrev_Some op prev :
  chainPrev op = Some prev <->
  (WriteOperation.previousOperationHash op = Some prev /\ prev <> EmptyString).
Proof.
  unfold chainPrev, truthy.
  destruct (WriteOperation.previousOperationHash op) as [[|c s]|]; split.
  - discriminate.
  - intros [[= <-] H]. now elim H.
  - intros [= <-]. split; [reflexivity|discriminate].
  - now intros [[= <-] _].
  - discriminate.
  - now intros [? _].
Qed.

Lemma appliedAt_snoc ops op h ts :
  appliedAt (ops ++ [op]) h ts <->
  (appliedAt ops h ts \/ (getHash op = h /\ timestampOf op = Some ts)).
Proof.
  unfold appliedAt. split.
  - intros (o & Hin & Hh & Hts). apply in_app_or in Hin.
    destruct Hin as [Hin|[<-|[]]]; [left; eauto|right; auto].
  - intros [(o & Hin & Hh & Hts)|[Hh Hts]].
    + exists o. auto using in_or_app.
    + exists op. split; [apply in_or_app; right; now left|auto].
Qed.

(** The ways in which the checked part of [apply] ends in a cache whose
    [nextVersion] entries all have an [OperationInfo]. *)
Lemma apply_checked_inv op opInfo this :
  nextVersionClosed this ->
  (exists stored,
      JsMap.get (getHash op) (opHashToInfo this) = Some stored
      /\ earlier (OperationInfo.timestamp stored) (OperationInfo.timestamp opInfo) = true
      /\ apply_checked op opInfo this = (ok None, this))
  \/ ((forall stored, JsMap.get (getHash op) (opHashToInfo this) = Some stored ->
         earlier (OperationInfo.timestamp stored) (OperationInfo.timestamp opInfo) = false)
      /\ fst (apply_checked op opInfo this) = ok (Some (getHash op))
      /\ opHashToInfo (snd (apply_checked op opInfo this))
         = JsMap.set (getHash op) opInfo (opHashToInfo this)
      /\ ((chainPrev op = None
           /\ nextVersion (snd (apply_checked op opInfo this)) = nextVersion this)
          \/ (exists prev, chainPrev op = Some prev
                /\ JsMap.get prev (nextVersion this) = None
                /\ nextVersion (snd (apply_checked op opInfo this))
                   = JsMap.set prev (getHash op) (nextVersion this))
          \/ (exists prev cur curInfo, chainPrev op = Some prev
                /\ JsMap.get prev (nextVersion this) = Some cur
                /\ JsMap.get cur (JsMap.set (getHash op) opInfo (opHashToInfo this))
                   = Some curInfo
                /\ ((earlier (OperationInfo.timestamp curInfo)
                             (OperationInfo.timestamp opInfo) = true
                     /\ nextVersion (snd (apply_checked op opInfo this)) = nextVersion this)
                    \/ (earlier (OperationInfo.timestamp curInfo)
                                (OperationInfo.timestamp opInfo) = false
                        /\ nextVersion (snd (apply_checked op opInfo this))
                           = JsMap.set prev (getHash op) (nextVersion this)))))).
Proof.
  intros Hclosed. unfold apply_checked.
  destruct (JsMap.get (getHash op) (opHashToInfo this)) as [stored|] eqn:Hstored.
  - destruct (earlier (OperationInfo.timestamp stored) (OperationInfo.timestamp opInfo))
      eqn:Hdup.
    { left. exists stored. auto. }
    right. split; [now intros ? [= <-]|].
    destruct (chainPrev op) as [prev|]; [|simpl; auto].
    unfold applyVersionChainUpdates; simpl.
    destruct (JsMap.get prev (nextVersion this)) as [cur|] eqn:Hcur.
    + destruct (Hclosed _ _ Hcur) as [curInfo0 HcurInfo0].
      destruct (JsMap.get cur (JsMap.set (getHash op) opInfo (opHashToInfo this)))
        as [curInfo|] eqn:HcurInfo.
      * destruct (earlier (OperationInfo.timestamp curInfo) (OperationInfo.timestamp opInfo))
          eqn:Hcmp; simpl; repeat split; right; right;
          exists prev, cur, curInfo; repeat split; auto.
      * rewrite JsMap_get_set in HcurInfo.
        destruct (String.eqb (getHash op) cur); congruence.
    + simpl. repeat split. right. left. exists prev. auto.
  - right. split; [discriminate|].
    destruct (chainPrev op) as [prev|]; [|simpl; auto].
    unfold applyVersionChainUpdates; simpl.
    destruct (JsMap.get prev (nextVersion this)) as [cur|] eqn:Hcur.
    + destruct (Hclosed _ _ Hcur) as [curInfo0 HcurInfo0].
      destruct (JsMap.get cur (JsMap.set (getHash op) opInfo (opHashToInfo this)))
        as [curInfo|] eqn:HcurInfo.
      * destruct (earlier (OperationInfo.timestamp curInfo) (OperationInfo.timestamp opInfo))
          eqn:Hcmp; simpl; repeat split; right; right;
          exists prev, cur, curInfo; repeat split; auto.
      * rewrite JsMap_get_set in HcurInfo.
        destruct (String.eqb (getHash op) cur); congruence.
    + simpl. repeat split. right. left. exists prev. auto.
Qed.

Lemma apply_checked_opHashToInfo op opInfo this :
  opHashToInfo (snd (apply_checked op opInfo this)) = opHashToInfo this
  \/ opHashToInfo (snd (apply_checked op opInfo this))
     = JsMap.set (getHash op) opInfo (opHashToInfo this).
Proof.
  unfold apply_checked.
  destruct (match JsMap.get (getHash op) (opHashToInfo this) with
            | Some _ => _ | None => _ end); [now left|].
  right. destruct (chainPrev op) as [prev|]; [|reflexivity].
  unfold applyVersionChainUpdates; simpl.
  destruct (JsMap.get prev (nextVersion this)) as [cur|]; [|reflexivity].
  destruct (JsMap.get cur _) as [curInfo|]; [|reflexivity].
  now destruct (earlier _ _).
Qed.

(** [apply] keeps [nextVersion] closed. *)
Lemma apply_closed op this :
  nextVersionClosed this -> nextVersionClosed (snd (apply op this)).
Proof.
  intros Hclosed.
  destruct (timestampOf op) as [ts|] eqn:Hts.
  2:{ destruct (apply_invalid op this Hts) as (e & -> & _). exact Hclosed. }
  destruct (timestampOf_infoOf _ _ Hts) as (opInfo & Hinfo & _).
  rewrite (apply_valid _ _ _ Hinfo).
  assert (Hgrow : forall k info,
             JsMap.get k (opHashToInfo this) = Some info ->
             exists info', JsMap.get k (JsMap.set (getHash op) opInfo (opHashToInfo this))
                           = Some info').
  { intros k info Hk. rewrite JsMap_get_set.
    destruct (String.eqb (getHash op) k); eauto. }
  destruct (apply_checked_inv op opInfo this Hclosed)
    as [(stored & _ & _ & ->)|(_ & _ & Hi & Hn)]; [exact Hclosed|].
  intros prev next Hnext. rewrite Hi.
  destruct Hn as [[_ Hn]|[(p & _ & _ & Hn)|(p & cur & curInfo & _ & _ & _ & [[_ Hn]|[_ Hn]])]];
    rewrite Hn in Hnext.
  - destruct (Hclosed _ _ Hnext) as [info Hk]. eauto.
  - rewrite JsMap_get_set in Hnext.
    destruct (String.eqb p prev).
    + injection Hnext as <-. rewrite JsMap_get_set_eq. eauto.
    + destruct (Hclosed _ _ Hnext) as [info Hk]. eauto.
  - destruct (Hclosed _ _ Hnext) as [info Hk]. eauto.
  - rewrite JsMap_get_set in Hnext.
    destruct (String.eqb p prev).
    + injection Hnext as <-. rewrite JsMap_get_set_eq. eauto.
    + destruct (Hclosed _ _ Hnext) as [info Hk]. eauto.
Qed.

(** In such a cache the only errors of [apply] are its own. *)
Lemma apply_only_throws_invalid op this e :
  nextVersionClosed this -> fst (apply op this) = throw e -> InvalidOperation e = true.
Proof.
  intros Hclosed.
  destruct (timestampOf op) as [ts|] eqn:Hts.
  - destruct (timestampOf_infoOf _ _ Hts) as (opInfo & Hinfo & _).
    rewrite (apply_valid _ _ _ Hinfo).
    destruct (apply_checked_inv op opInfo this Hclosed)
      as [(stored & _ & _ & ->)|(_ & -> & _)]; discriminate.
  - destruct (apply_invalid op this Hts) as (e' & -> & Hinv).
    now intros [= <-].
Qed.

Lemma applyAll_closed ops : nextVersionClosed (applyAll ops newDidCache).
Proof.
  induction ops as [|op ops IH] using rev_ind.
  - intros prev next H. discriminate.
  - rewrite applyAll_snoc. now apply apply_closed.
Qed.

Lemma Earliest_step ops op this :
  nextVersionClosed this ->
  Earliest ops this -> Earliest (ops ++ [op]) (snd (apply op this)).
Proof.
  intros Hclosed [Hstored Hall].
  assert (Hweak : forall h info,
             (exists o, In o ops /\ getHash o = h /\ infoOf o = Some info) ->
             exists o, In o (ops ++ [op]) /\ getHash o = h /\ infoOf o = Some info).
  { intros h info (o & Hin & H). exists o. auto using in_or_app. }
  destruct (timestampOf op) as [ts|] eqn:Hts.
  2:{ destruct (apply_invalid op this Hts) as (e & -> & _). simpl.
      split.
      - intros h info Hget. destruct (Hstored _ _ Hget) as [Ha Hmin].
        split; [auto|]. intros ts' Hat. apply appliedAt_snoc in Hat.
        destruct Hat as [Hat|[_ Hat]]; [auto|congruence].
      - intros h ts' Hat. apply appliedAt_snoc in Hat.
        destruct Hat as [Hat|[_ Hat]]; [eauto|congruence]. }
  destruct (timestampOf_infoOf _ _ Hts) as (opInfo & Hinfo & Hits).
  rewrite (apply_valid _ _ _ Hinfo).
  destruct (apply_checked_inv op opInfo this Hclosed)
    as [(stored & Hget & Hdup & ->)|(Hnodup & _ & Hi & _)].
  - simpl. split.
    + intros h info Hh. destruct (Hstored _ _ Hh) as [Ha Hmin].
      split; [auto|]. intros ts' Hat. apply appliedAt_snoc in Hat.
      destruct Hat as [Hat|[Hh' Hat]]; [auto|].
      subst h. assert (info = stored) by congruence. subst info.
      assert (ts' = ts) by congruence. subst ts' ts. order_timestamps.
    + intros h ts' Hat. apply appliedAt_snoc in Hat.
      destruct Hat as [Hat|[Hh' Hat]]; [eauto|]. subst h. eauto.
  - unfold Earliest. rewrite Hi. split.
    + intros h info Hh. rewrite JsMap_get_set in Hh.
      destruct (String.eqb_spec (getHash op) h) as [Heq|Hne].
      * injection Hh as <-. split.
        { exists op. split; [apply in_or_app; right; now left|auto]. }
        intros ts' Hat. apply appliedAt_snoc in Hat.
        destruct Hat as [Hat|[_ Hat]].
        -- subst h. destruct (Hall _ _ Hat) as [old Hold].
           pose proof (Hnodup _ Hold) as Hle.
           destruct (Hstored _ _ Hold) as [_ Hmin].
           pose proof (Hmin _ Hat) as Hle'. order_timestamps.
        -- assert (ts' = ts) by congruence. subst ts' ts. apply earlier_irrefl.
      * destruct (Hstored _ _ Hh) as [Ha Hmin]. split; [auto|].
        intros ts' Hat. apply appliedAt_snoc in Hat.
        destruct Hat as [Hat|[Hh' _]]; [auto|contradiction].
    + intros h ts' Hat. rewrite JsMap_get_set.
      destruct (String.eqb_spec (getHash op) h) as [Heq|Hne]; [eauto|].
      apply appliedAt_snoc in Hat.
      destruct Hat as [Hat|[Hh' _]]; [eauto|contradiction].
Qed.

Lemma applyAll_Earliest ops : Earliest ops (applyAll ops newDidCache).
Proof.
  induction ops as [|op ops IH] using rev_ind.
  - split.
    + intros h info H. discriminate.
    + intros h ts (o & [] & _).
  - rewrite applyAll_snoc. apply Earliest_step; [apply applyAll_closed|exact IH].
Qed.
(** C1.  Duplicates are resolved in favour of the earliest call: after
    any sequence of [apply] calls the record stored for a hash carries the
    timestamp of one of the calls for that hash, no call for that hash has
    an earlier one, and every hash applied with complete metadata is
    stored; a call whose hash is stored with a strictly earlier timestamp
    returns [undefined] and changes nothing; any other call stores its own
    record and returns the hash. *)
Theorem apply_earliest_wins (ops : list WriteOperation.t) :
  let this := applyAll ops newDidCache in
  (forall h info, JsMap.get h (opHashToInfo this) = Some info ->
     appliedAt ops h (OperationInfo.timestamp info)
     /\ forall ts, appliedAt ops h ts -> notLater (OperationInfo.timestamp info) ts)
  /\ (forall h ts, appliedAt ops h ts ->
      exists info, JsMap.get h (opHashToInfo this) = Some info)
  /\ (forall op opInfo stored,
      infoOf op = Some opInfo ->
      JsMap.get (getHash op) (opHashToInfo this) = Some stored ->
      earlier (OperationInfo.timestamp stored) (OperationInfo.timestamp opInfo) = true ->
      apply op this = (ok None, this))
  /\ (forall op opInfo,
      infoOf op = Some opInfo ->
      (forall stored, JsMap.get (getHash op) (opHashToInfo this) = Some stored ->
         earlier (OperationInfo.timestamp stored) (OperationInfo.timestamp opInfo) = false) ->
      fst (apply op this) = ok (Some (getHash op))
      /\ JsMap.get (getHash op) (opHashToInfo (snd (apply op this))) = Some opInfo).
Proof.
  intros this.
  pose proof (applyAll_Earliest ops) as [Hstored Hall].
  pose proof (applyAll_closed ops) as Hclosed.
  fold this in Hstored, Hall, Hclosed.
  repeat split.
  - destruct (Hstored _ _ H) as [(o & Hin & Hh & Hinfo) _].
    exists o. auto using infoOf_timestampOf.
  - intros ts Hat. destruct (Hstored _ _ H) as [_ Hmin]. now apply Hmin.
  - exact Hall.
  - intros op opInfo stored Hinfo Hget Hdup.
    rewrite (apply_valid _ _ _ Hinfo).
    destruct (apply_checked_inv op opInfo this Hclosed)
      as [(stored' & _ & _ & ->)|(Hnodup & _)]; [reflexivity|].
    specialize (Hnodup _ Hget). congruence.
  - rewrite (apply_valid _ _ _ H).
    destruct (apply_checked_inv op opInfo this Hclosed)
      as [(stored & Hget & Hdup & _)|(_ & Hret & _)]; [|exact Hret].
    specialize (H0 _ Hget). congruence.
  - rewrite (apply_valid _ _ _ H).
    destruct (apply_checked_inv op opInfo this Hclosed)
      as [(stored & Hget & Hdup & _)|(_ & _ & -> & _)].
    + specialize (H0 _ Hget). congruence.
    + apply JsMap_get_set_eq.
Qed.

Lemma ForkResolved_step ops op this :
  hashDeterminesPrev (ops ++ [op]) ->
  Earliest ops this -> ForkResolved ops this ->
  ForkResolved (ops ++ [op]) (snd (apply op this)).
Proof.
  intros Hdet [Hstored Hall] [Hnext Hlinked].
  assert (Hclosed : nextVersionClosed this).
  { intros prev next H. destruct (Hnext _ _ H) as [_ (info & Hinfo & _)]. eauto. }
  assert (Hlast : In op (ops ++ [op])) by (apply in_or_app; right; now left).
  assert (Hsame : forall o, In o ops -> getHash o = getHash op ->
                            chainPrev o = chainPrev op).
  { intros o Hin Hh. apply Hdet; auto using in_or_app. }
  assert (Hweak : forall prev next,
             (exists o, In o ops /\ getHash o = next /\ chainPrev o = Some prev
                        /\ timestampOf o <> None) ->
             exists o, In o (ops ++ [op]) /\ getHash o = next /\ chainPrev o = Some prev
                       /\ timestampOf o <> None).
  { intros prev next (o & Hin & H). exists o. auto using in_or_app. }
  destruct (timestampOf op) as [ts|] eqn:Hts.
  2:{ destruct (apply_invalid op this Hts) as (e & -> & _). simpl. split.
      - intros prev next Hget. destruct (Hnext _ _ Hget) as [Hw (info & Hinfo & Hmin)].
        split; [auto|]. exists info. split; [auto|].
        intros o ts' Hin Hp Hts'. apply in_app_or in Hin.
        destruct Hin as [Hin|[<-|[]]]; [eauto|congruence].
      - intros o ts' prev Hin Hts' Hp. apply in_app_or in Hin.
        destruct Hin as [Hin|[<-|[]]]; [eauto|congruence]. }
  destruct (timestampOf_infoOf _ _ Hts) as (opInfo & Hinfo & Hits).
  rewrite (apply_valid _ _ _ Hinfo).
  destruct (apply_checked_inv op opInfo this Hclosed)
    as [(stored & Hget & Hdup & ->)|(Hnodup & _ & Hi & Hn)].
  - (* the call is a duplicate of an earlier one *)
    simpl.
    destruct (Hstored _ _ Hget) as [(o0 & Hin0 & Hh0 & Hinfo0) _].
    pose proof (Hsame _ Hin0 Hh0) as Hprev0.
    pose proof (infoOf_timestampOf _ _ Hinfo0) as Hts0.
    split.
    + intros prev next Hg. destruct (Hnext _ _ Hg) as [Hw (info & Hgi & Hmin)].
      split; [auto|]. exists info. split; [auto|].
      intros o ts' Hin Hp Hts'. apply in_app_or in Hin.
      destruct Hin as [Hin|[<-|[]]]; [eauto|].
      assert (ts' = ts) by congruence. subst ts' ts.
      assert (Hle : earlier (OperationInfo.timestamp stored)
                            (OperationInfo.timestamp info) = false).
      { eapply Hmin; eauto. congruence. }
      order_timestamps.
    + intros o ts' prev Hin Hts' Hp. apply in_app_or in Hin.
      destruct Hin as [Hin|[<-|[]]]; [eauto|].
      eapply Hlinked; eauto. congruence.
  - (* the call stores its record *)
    unfold ForkResolved. rewrite Hi.
    assert (Hother : forall prev next,
               JsMap.get prev (nextVersion this) = Some next ->
               chainPrev op <> Some prev -> getHash op <> next).
    { intros prev next Hg Hne Heq.
      destruct (Hnext _ _ Hg) as [(o & Hin & Hh & Hp & _) _].
      apply Hne. rewrite <- (Hsame o Hin); congruence. }
    assert (Hkeep : forall prev next,
               JsMap.get prev (nextVersion this) = Some next ->
               chainPrev op <> Some prev ->
               (exists o, In o (ops ++ [op]) /\ getHash o = next /\ chainPrev o = Some prev
                          /\ timestampOf o <> None)
               /\ (exists info,
                     JsMap.get next (JsMap.set (getHash op) opInfo (opHashToInfo this))
                     = Some info
                     /\ forall o ts', In o (ops ++ [op]) -> chainPrev o = Some prev ->
                          timestampOf o = Some ts' ->
                          earlier ts' (OperationInfo.timestamp info) = false)).
    { intros prev next Hg Hne.
      destruct (Hnext _ _ Hg) as [Hw (info & Hgi & Hmin)].
      split; [auto|]. exists info. split.
      - rewrite JsMap_get_set_neq; eauto.
      - intros o ts' Hin Hp Hts'. apply in_app_or in Hin.
        destruct Hin as [Hin|[<-|[]]]; [eauto|contradiction]. }
    assert (Hself : exists o, In o (ops ++ [op]) /\ getHash o = getHash op
                              /\ chainPrev o = chainPrev op /\ timestampOf o <> None).
    { exists op. repeat split; auto. congruence. }
    assert (Hset : forall prev,
               chainPrev op = Some prev ->
               (forall o ts', In o ops -> chainPrev o = Some prev ->
                   timestampOf o = Some ts' ->
                   earlier ts' (OperationInfo.timestamp opInfo) = false) ->
               forall p next,
                 JsMap.get p (JsMap.set prev (getHash op) (nextVersion this)) = Some next ->
                 (exists o, In o (ops ++ [op]) /\ getHash o = next /\ chainPrev o = Some p
                            /\ timestampOf o <> None)
                 /\ (exists info,
                       JsMap.get next (JsMap.set (getHash op) opInfo (opHashToInfo this))
                       = Some info
                       /\ forall o ts', In o (ops ++ [op]) -> chainPrev o = Some p ->
                            timestampOf o = Some ts' ->
                            earlier ts' (OperationInfo.timestamp info) = false)).
    { intros prev Hp Hmin p next Hg. rewrite JsMap_get_set in Hg.
      destruct (String.eqb_spec prev p) as [<-|Hne].
      - injection Hg as <-. split.
        { destruct Hself as (o & Ho1 & Ho2 & Ho3 & Ho4). exists o.
          split; [exact Ho1|]. split; [exact Ho2|]. split; [|exact Ho4].
          rewrite Ho3. exact Hp. }
        exists opInfo. split; [apply JsMap_get_set_eq|].
        intros o ts' Hin Hpo Hts'. apply in_app_or in Hin.
        destruct Hin as [Hin|[<-|[]]]; [eauto|].
        assert (ts' = ts) by congruence. subst ts' ts. apply earlier_irrefl.
      - apply Hkeep; auto. congruence. }
    assert (Hlinked_set : forall prev,
               chainPrev op = Some prev ->
               forall o ts' p, In o (ops ++ [op]) -> timestampOf o = Some ts' ->
                 chainPrev o = Some p ->
                 exists next,
                   JsMap.get p (JsMap.set prev (getHash op) (nextVersion this)) = Some next).
    { intros prev Hp o ts' p Hin Hts' Hpo. rewrite JsMap_get_set.
      destruct (String.eqb_spec prev p) as [<-|Hne]; [eauto|].
      apply in_app_or in Hin.
      destruct Hin as [Hin|[<-|[]]]; [eauto|congruence]. }
    destruct Hn as [[Hp ->]|[(prev & Hp & Hnone & ->)
                            |(prev & cur & curInfo & Hp & Hcur & HcurInfo & [[Hcmp ->]|[Hcmp ->]])]].
    + (* no predecessor *)
      split.
      * intros prev next Hg. apply Hkeep; auto. congruence.
      * intros o ts' prev Hin Hts' Hpo. apply in_app_or in Hin.
        destruct Hin as [Hin|[<-|[]]]; [eauto|congruence].
    + (* first update of [prev] *)
      split; [|now apply Hlinked_set].
      apply Hset; auto.
      intros o ts' Hin Hpo Hts'.
      destruct (Hlinked _ _ _ Hin Hts' Hpo) as [next Hg]. congruence.
    + (* the update known for [prev] is earlier *)
      assert (Hne : getHash op <> cur).
      { intros <-. rewrite JsMap_get_set_eq in HcurInfo.
        injection HcurInfo as <-. rewrite earlier_irrefl in Hcmp. discriminate. }
      split.
      * intros p next Hg.
        destruct (String.eqb_spec prev p) as [<-|Hnp].
        -- assert (next = cur) by congruence. subst next.
           destruct (Hnext _ _ Hg) as [Hw (info & Hgi & Hmin)].
           split; [auto|]. exists curInfo. split; [exact HcurInfo|].
           rewrite JsMap_get_set_neq in HcurInfo by exact Hne.
           assert (info = curInfo) by congruence. subst info.
           intros o ts' Hin Hpo Hts'. apply in_app_or in Hin.
           destruct Hin as [Hin|[<-|[]]]; [eauto|].
           assert (ts' = ts) by congruence. subst ts' ts. order_timestamps.
        -- apply Hkeep; auto. congruence.
      * intros o ts' p Hin Hts' Hpo. apply in_app_or in Hin.
        destruct Hin as [Hin|[<-|[]]]; [eauto|].
        assert (p = prev) by congruence. subst p. eauto.
    + (* the call replaces the update known for [prev] *)
      split; [|now apply Hlinked_set].
      apply Hset; auto.
      intros o ts' Hin Hpo Hts'.
      destruct (Hnext _ _ Hcur) as [_ (info & Hgi & Hmin)].
      pose proof (Hmin _ _ Hin Hpo Hts') as Hle.
      rewrite JsMap_get_set in HcurInfo.
      destruct (String.eqb_spec (getHash op) cur) as [<-|Hne].
      * injection HcurInfo as <-. pose proof (Hnodup _ Hgi) as Hle'.
        order_timestamps.
      * assert (info = curInfo) by congruence. subst info. order_timestamps.
Qed.

Lemma hashDeterminesPrev_app ops ops' :
  hashDeterminesPrev (ops ++ ops') -> hashDeterminesPrev ops.
Proof. intros H o1 o2 H1 H2. apply H; auto using in_or_app. Qed.

Lemma applyAll_ForkResolved ops :
  hashDeterminesPrev ops -> ForkResolved ops (applyAll ops newDidCache).
Proof.
  induction ops as [|op ops IH] using rev_ind; intros Hdet.
  - split.
    + intros prev next H. discriminate.
    + intros o ts prev [].
  - rewrite applyAll_snoc. apply ForkResolved_step; auto.
    + apply applyAll_Earliest.
    + apply IH. eapply hashDeterminesPrev_app, Hdet.
Qed.

(** C2.  After any sequence of [apply] calls in which an operation hash
    names one operation, every entry (prev, next) of [nextVersion] points
    to a stored operation that was applied with [previousOperationHash]
    equal to [prev], and the timestamp stored for [next] is the least among
    the applied operations whose [previousOperationHash] is [prev]. *)
Theorem fork_resolution_invariant (ops : list WriteOperation.t)
    (Hdet : hashDeterminesPrev ops) (prev next : VersionId) :
  let this := applyAll ops newDidCache in
  JsMap.get prev (nextVersion this) = Some next ->
  exists info,
    JsMap.get next (opHashToInfo this) = Some info
    /\ (exists op, In op ops /\ getHash op = next
                   /\ timestampOf op = Some (OperationInfo.timestamp info)
                   /\ WriteOperation.previousOperationHash op = Some prev)
    /\ (forall op, In op ops -> getHash op = next ->
          WriteOperation.previousOperationHash op = Some prev)
    /\ (forall op ts, In op ops ->
          WriteOperation.previousOperationHash op = Some prev ->
          timestampOf op = Some ts ->
          notLater (OperationInfo.timestamp info) ts).
Proof.
  intros this Hget.
  pose proof (applyAll_Earliest ops) as [Hstored _].
  pose proof (applyAll_ForkResolved ops Hdet) as [Hnext _].
  fold this in Hstored, Hnext.
  destruct (Hnext _ _ Hget) as [(o & Hin & Hh & Hp & _) (info & Hinfo & Hmin)].
  pose proof (proj1 (chainPrev_Some _ _) Hp) as [Hprev Hnonempty].
  exists info. split; [exact Hinfo|].
  assert (Hall : forall op, In op ops -> getHash op = next ->
                            WriteOperation.previousOperationHash op = Some prev).
  { intros op Hop Hhash.
    assert (Hc : chainPrev op = Some prev).
    { transitivity (chainPrev o); [|exact Hp]. apply Hdet; auto. congruence. }
    now apply chainPrev_Some in Hc. }
  repeat split.
  - destruct (Hstored _ _ Hinfo) as [(o' & Hin' & Hh' & Hinfo') _].
    exists o'. auto using infoOf_timestampOf.
  - exact Hall.
  - intros op ts Hop Hpo Hts. unfold notLater.
    eapply Hmin; eauto. apply chainPrev_Some. auto.
Qed.
End ApplyRuns.

Lemma Sample_scenario6_hashes :
  hashDeterminesPrev (crypto := Sample.crypto) [Sample.C; Sample.U1; Sample.U2; Sample.U3].
Proof.
  intros o1 o2 H1 H2 Hh. simpl in H1, H2.
  destruct H1 as [<-|[<-|[<-|[<-|[]]]]], H2 as [<-|[<-|[<-|[<-|[]]]]];
    try reflexivity; vm_compute in Hh; discriminate.
Qed.

Lemma apply_earliest_wins_witness :
  (exists info,
      JsMap.get (Sample.hash Sample.U1) (opHashToInfo Sample.scenario6) = Some info
      /\ appliedAt (crypto := Sample.crypto) [Sample.C; Sample.U1; Sample.U2; Sample.U3]
           (Sample.hash Sample.U1) (OperationInfo.timestamp info))
  /\ apply (crypto := Sample.crypto) Sample.late Sample.scenario6
     = (ok None, Sample.scenario6)
  /\ fst (apply (crypto := Sample.crypto) Sample.U1 Sample.scenario6)
     = ok (Some (Sample.hash Sample.U1)).
Proof.
  destruct (apply_earliest_wins (crypto := Sample.crypto)
              [Sample.C; Sample.U1; Sample.U2; Sample.U3]) as (Hmin & Hall & Hdup & Hstore).
  split; [|split].
  - destruct (Hall (Sample.hash Sample.U1) (OperationTimestamp.mk 10 10 0)) as [info Hinfo].
    { exists Sample.U1. split; [simpl; auto|split; reflexivity]. }
    exists info. split; [exact Hinfo|]. exact (proj1 (Hmin _ _ Hinfo)).
  - eapply Hdup; reflexivity.
  - eapply Hstore; [reflexivity|].
    intros stored Hstored. vm_compute in Hstored.
    injection Hstored as <-. reflexivity.
Defined.

Lemma fork_resolution_invariant_witness :
  hashDeterminesPrev (crypto := Sample.crypto) [Sample.C; Sample.U1; Sample.U2; Sample.U3]
  /\ JsMap.get (Sample.hash Sample.C) (nextVersion Sample.scenario6)
     = Some (Sample.hash Sample.U1)
  /\ exists info,
       JsMap.get (Sample.hash Sample.U1) (opHashToInfo Sample.scenario6) = Some info
       /\ forall op ts,
            In op [Sample.C; Sample.U1; Sample.U2; Sample.U3] ->
            WriteOperation.previousOperationHash op = Some (Sample.hash Sample.C) ->
            timestampOf op = Some ts ->
            notLater (OperationInfo.timestamp info) ts.
Proof.
  split; [exact Sample_scenario6_hashes|].
  split; [reflexivity|].
  destruct (fork_resolution_invariant (crypto := Sample.crypto) _
              Sample_scenario6_hashes (Sample.hash Sample.C) (Sample.hash Sample.U1)
              eq_refl) as (info & Hinfo & _ & _ & Hmin).
  exists info. split; [exact Hinfo|exact Hmin].
Defined.

(* ================================================================== *)
(** * Applying an operation again at its stored timestamp *)

Section Reapply.
Context {crypto : Crypto}.

(** C10, as the code has it.  In a cache whose [nextVersion] targets are
    all stored, applying an operation whose hash is stored with the
    operation's own timestamp returns the hash and stores the operation's
    record, which leaves [opHashToInfo] as it was when the stored record is
    the operation's own.  [nextVersion] is left as it was when the
    operation has no predecessor, or its predecessor is linked to this
    hash, or to an operation stored with a strictly earlier timestamp; when
    the predecessor is not linked, or is linked to another operation that
    is not strictly earlier, the link is moved to this hash. *)
Theorem equal_timestamp_reapply (op : WriteOperation.t)
    (opInfo stored : OperationInfo.t) (this : DidCacheImpl) :
  nextVersionClosed this ->
  infoOf op = Some opInfo ->
  JsMap.get (getHash op) (opHashToInfo this) = Some stored ->
  OperationInfo.timestamp stored = OperationInfo.timestamp opInfo ->
  let this' := snd (apply op this) in
  fst (apply op this) = ok (Some (getHash op))
  /\ opHashToInfo this' = JsMap.set (getHash op) opInfo (opHashToInfo this)
  /\ (stored = opInfo -> opHashToInfo this' = opHashToInfo this)
  /\ (chainPrev op = None -> nextVersion this' = nextVersion this)
  /\ (forall prev cur, chainPrev op = Some prev ->
        JsMap.get prev (nextVersion this) = Some cur ->
        (cur = getHash op
         \/ exists curInfo, JsMap.get cur (opHashToInfo this) = Some curInfo
              /\ earlier (OperationInfo.timestamp curInfo)
                         (OperationInfo.timestamp opInfo) = true) ->
        nextVersion this' = nextVersion this)
  /\ (forall prev, chainPrev op = Some prev ->
        (JsMap.get prev (nextVersion this) = None
         \/ exists cur curInfo, JsMap.get prev (nextVersion this) = Some cur
              /\ cur <> getHash op
              /\ JsMap.get cur (opHashToInfo this) = Some curInfo
              /\ earlier (OperationInfo.timestamp curInfo)
                         (OperationInfo.timestamp opInfo) = false) ->
        nextVersion this' = JsMap.set prev (getHash op) (nextVersion this)).
Proof.
  intros Hclosed Hinfo Hstored Hts this'. subst this'.
  rewrite (apply_valid _ _ _ Hinfo).
  destruct (apply_checked_inv op opInfo this Hclosed)
    as [(stored' & Hget & Hdup & _)|(_ & Hret & Hi & Hn)].
  { assert (stored' = stored) by congruence. subst stored'.
    rewrite Hts, earlier_irrefl in Hdup. discriminate. }
  split; [exact Hret|]. split; [exact Hi|].
  split; [intros <-; rewrite Hi; now apply JsMap_set_same|].
  destruct Hn as [[Hp Hn]|[(p & Hp & Hnone & Hn)
                          |(p & cur0 & curInfo0 & Hp & Hcur & HcurInfo & Hn)]].
  - repeat split.
    + intros _. exact Hn.
    + intros prev cur Hp'. congruence.
    + intros prev Hp'. congruence.
  - repeat split.
    + congruence.
    + intros prev cur Hp' Hc. assert (prev = p) by congruence. subst prev. congruence.
    + intros prev Hp' _. assert (prev = p) by congruence. subst prev. exact Hn.
  - rewrite JsMap_get_set in HcurInfo.
    repeat split.
    + congruence.
    + intros prev cur Hp' Hc Hcase.
      assert (prev = p) by congruence. subst prev.
      assert (cur = cur0) by congruence. subst cur0.
      destruct Hcase as [->|(curInfo & HcurInfo' & Hcmp)].
      * rewrite String.eqb_refl in HcurInfo. injection HcurInfo as <-.
        destruct Hn as [[_ Hn]|[_ Hn]]; [exact Hn|].
        rewrite Hn. now apply JsMap_set_same.
      * destruct (String.eqb_spec (getHash op) cur) as [Heq|Hne].
        -- injection HcurInfo as <-.
           destruct Hn as [[_ Hn]|[_ Hn]]; [exact Hn|].
           rewrite Hn, Heq. now apply JsMap_set_same.
        -- assert (curInfo0 = curInfo) by congruence. subst curInfo0.
           destruct Hn as [[_ Hn]|[Hcmp' _]]; [exact Hn|congruence].
    + intros prev Hp' [Hnone|(cur & curInfo & Hc & Hne & HcurInfo' & Hcmp)].
      * assert (prev = p) by congruence. subst prev. congruence.
      * assert (prev = p) by congruence. subst prev.
        assert (cur = cur0) by congruence. subst cur0.
        destruct (String.eqb_spec (getHash op) cur) as [Heq|_]; [elim Hne; now symmetry|].
        assert (curInfo0 = curInfo) by congruence. subst curInfo0.
        destruct Hn as [[Hcmp' _]|[_ Hn]]; [congruence|exact Hn].
Qed.
End Reapply.

Lemma equal_timestamp_reapply_witness :
  fst (apply (crypto := Sample.crypto) Sample.U1 Sample.scenario6)
  = ok (Some (Sample.hash Sample.U1))
  /\ opHashToInfo (snd (apply (crypto := Sample.crypto) Sample.U1 Sample.scenario6))
     = opHashToInfo Sample.scenario6
  /\ nextVersion (snd (apply (crypto := Sample.crypto) Sample.U1 Sample.scenario6))
     = nextVersion Sample.scenario6.
Proof.
  destruct (equal_timestamp_reapply (crypto := Sample.crypto) Sample.U1
              (OperationInfo.mk (string_of_list_byte (WriteOperation.operationBuffer Sample.U1))
                 Update (OperationTimestamp.mk 10 10 0))
              (OperationInfo.mk (string_of_list_byte (WriteOperation.operationBuffer Sample.U1))
                 Update (OperationTimestamp.mk 10 10 0))
              Sample.scenario6)
    as (Hret & _ & Hinfo & _ & Hkeep & _).
  - apply (applyAll_closed (crypto := Sample.crypto)).
  - reflexivity.
  - reflexivity.
  - reflexivity.
  - split; [exact Hret|]. split; [apply Hinfo; reflexivity|].
    apply (Hkeep (Sample.hash Sample.C) (Sample.hash Sample.U1)).
    + reflexivity.
    + reflexivity.
    + left. reflexivity.
Defined.

(** C10, as stated, fails.  [B1] and [A1] update [C] from the same
    position, so [nextVersion] links [C] to the later arrival [B1];
    applying [A1] once more, at its stored timestamp, moves the link to
    [A1].  And an operation that comes back with its stored timestamp but
    another batch file replaces the stored record. *)
Lemma equal_timestamp_reapply_counterexample :
  (In Sample.A1 [Sample.C; Sample.A1; Sample.B1]
   /\ (exists stored,
         JsMap.get (Sample.hash Sample.A1) (opHashToInfo Sample.tiedCache) = Some stored
         /\ timestampOf Sample.A1 = Some (OperationInfo.timestamp stored))
   /\ ~ JsMap.equiv
          (nextVersion (snd (apply (crypto := Sample.crypto) Sample.A1 Sample.tiedCache)))
          (nextVersion Sample.tiedCache))
  /\ ((exists stored,
         JsMap.get (Sample.hash Sample.A1_rebatched) (opHashToInfo Sample.tiedCache)
         = Some stored
         /\ timestampOf Sample.A1_rebatched = Some (OperationInfo.timestamp stored))
      /\ ~ JsMap.equiv
             (opHashToInfo
                (snd (apply (crypto := Sample.crypto) Sample.A1_rebatched Sample.tiedCache)))
             (opHashToInfo Sample.tiedCache)).
Proof.
  split; split.
  - simpl. auto.
  - split.
    + eexists. split; reflexivity.
    + intros Hequiv. specialize (Hequiv (Sample.hash Sample.C)).
      vm_compute in Hequiv. discriminate.
  - eexists. split; reflexivity.
  - intros Hequiv. specialize (Hequiv (Sample.hash Sample.A1)).
    vm_compute in Hequiv. discriminate.
Qed.

(* ================================================================== *)
(** * [rollback] *)

(** [rollback] prunes [opHashToInfo] after [nextVersion], and only when
    the walk over [nextVersion] has not thrown. *)
Lemma rollback_order T this :
  (forall e nextVersion',
      JsMap.forEach (rollback_nextVersion_callback T this) (nextVersion this)
      = (Some e, nextVersion') ->
      rollback T this
      = (throw e, {| nextVersion := nextVersion'; opHashToInfo := opHashToInfo this |}))
  /\ (forall nextVersion',
      JsMap.forEach (rollback_nextVersion_callback T this) (nextVersion this)
      = (None, nextVersion') ->
      nextVersion (snd (rollback T this)) = nextVersion'
      /\ opHashToInfo (snd (rollback T this))
         = snd (JsMap.forEach (rollback_opHashToInfo_callback T) (opHashToInfo this))).
Proof.
  unfold rollback. split.
  - intros e nextVersion' ->. reflexivity.
  - intros nextVersion' ->.
    destruct (JsMap.forEach (rollback_opHashToInfo_callback T) (opHashToInfo this))
      as [[e|] m]; auto.
Qed.

(** The walk over [opHashToInfo] removes what it is meant to remove. *)
Lemma rollback_opHashToInfo_loop T pending (m : JsMap.t OperationInfo.t) :
  exists m',
    JsMap.forEach_loop (rollback_opHashToInfo_callback T) pending m = (None, m')
    /\ forall k,
         JsMap.get k m' =
         match JsMap.get k m with
         | Some info =>
             if existsb (String.eqb k) pending
                && (OperationTimestamp.transactionNumber (OperationInfo.timestamp info) >=? T)
             then None else Some info
         | None => None
         end.
Proof.
  revert m. induction pending as [|key rest IH]; intros m; simpl.
  - exists m. split; [reflexivity|]. intros k. now destruct (JsMap.get k m).
  - destruct (JsMap.get key m) as [value|] eqn:Hkey.
    + unfold rollback_opHashToInfo_callback at 1.
      destruct (OperationTimestamp.transactionNumber (OperationInfo.timestamp value) >=? T)
        eqn:Hge.
      * destruct (IH (JsMap.delete key m)) as (m' & Hloop & Hget).
        exists m'. split; [exact Hloop|]. intros k. rewrite Hget, JsMap_get_delete.
        rewrite (String.eqb_sym k key).
        destruct (String.eqb_spec key k) as [<-|Hne]; simpl.
        -- now rewrite Hkey, Hge.
        -- reflexivity.
      * destruct (IH m) as (m' & Hloop & Hget).
        exists m'. split; [exact Hloop|]. intros k. rewrite Hget.
        rewrite (String.eqb_sym k key).
        destruct (String.eqb_spec key k) as [<-|Hne]; simpl; [|reflexivity].
        rewrite Hkey, Hge.
        now destruct (existsb (String.eqb key) rest).
    + destruct (IH m) as (m' & Hloop & Hget).
      exists m'. split; [exact Hloop|]. intros k. rewrite Hget.
      rewrite (String.eqb_sym k key).
      destruct (String.eqb_spec key k) as [<-|Hne]; simpl; [|reflexivity].
      now rewrite Hkey.
Qed.

Lemma JsMap_get_keys {V : Type} (m : JsMap.t V) k v :
  JsMap.get k m = Some v -> existsb (String.eqb k) (JsMap.keys m) = true.
Proof.
  induction m as [|[k0 v0] m IH]; simpl; [discriminate|].
  rewrite (String.eqb_sym k k0).
  destruct (String.eqb k0 k); simpl; auto.
Qed.

(** When [rollback] returns, [opHashToInfo] keeps exactly the records with
    a transaction number below [T]. *)
Lemma rollback_opHashToInfo T this this' :
  rollback T this = (ok tt, this') ->
  forall k,
    JsMap.get k (opHashToInfo this') =
    match JsMap.get k (opHashToInfo this) with
    | Some info =>
        if OperationTimestamp.transactionNumber (OperationInfo.timestamp info) >=? T
        then None else Some info
    | None => None
    end.
Proof.
  unfold rollback.
  destruct (JsMap.forEach _ (nextVersion this)) as [[e|] nv]; [discriminate|].
  unfold JsMap.forEach.
  destruct (rollback_opHashToInfo_loop T (JsMap.keys (opHashToInfo this)) (opHashToInfo this))
    as (m' & -> & Hget).
  intros [= <-] k. simpl. rewrite Hget.
  destruct (JsMap.get k (opHashToInfo this)) as [info|] eqn:Hk; [|reflexivity].
  now rewrite (JsMap_get_keys _ _ _ Hk).
Qed.

(** C3 (defect in the code).  The walk over [nextVersion] reads the
    record of the key of an entry and deletes the entry filed under its
    value.  After scenario 6 of the specification, [rollback(11)] removes
    the record of [U3] (transaction 12) and keeps the link from [U1] to
    [U3]; on a chain anchored in the reverse order it removes the link from
    [N] to [NN], whose transaction number is 1; and when the predecessor of
    a link was never applied it throws and prunes nothing. *)
Theorem rollback_nextVersion_defect :
  (fst (rollback 11 Sample.scenario6) = ok tt
   /\ option_map (fun info => OperationTimestamp.transactionNumber (OperationInfo.timestamp info))
        (JsMap.get (Sample.hash Sample.U3) (opHashToInfo Sample.scenario6)) = Some 12
   /\ JsMap.get (Sample.hash Sample.U3) (opHashToInfo (snd (rollback 11 Sample.scenario6)))
      = None
   /\ JsMap.get (Sample.hash Sample.U1) (nextVersion (snd (rollback 11 Sample.scenario6)))
      = Some (Sample.hash Sample.U3))
  /\ (fst (rollback 11 Sample.reversedChain) = ok tt
      /\ JsMap.get (Sample.hash Sample.N) (nextVersion Sample.reversedChain)
         = Some (Sample.hash Sample.NN)
      /\ option_map (fun info => OperationTimestamp.transactionNumber (OperationInfo.timestamp info))
           (JsMap.get (Sample.hash Sample.NN) (opHashToInfo Sample.reversedChain)) = Some 1
      /\ JsMap.get (Sample.hash Sample.N) (nextVersion (snd (rollback 11 Sample.reversedChain)))
         = None)
  /\ (rollback 5 Sample.orphanCache
      = (throw (TypeError "timestamp of undefined"), Sample.orphanCache)
      /\ option_map (fun info => OperationTimestamp.transactionNumber (OperationInfo.timestamp info))
           (JsMap.get (Sample.hash Sample.orphan) (opHashToInfo Sample.orphanCache)) = Some 10).
Proof. repeat split; vm_compute; reflexivity. Qed.

(** C4 (same defect).  [NN], [N], [P] are applied in ledger order;
    [rollback(11)] prunes [P] alone, and applying [P] again does not bring
    back the link from [N] to [NN] that [rollback] removed. *)
Theorem rollback_replay_defect :
  inLedgerOrder [Sample.NN; Sample.N; Sample.P] = true
  /\ prunedBy 11 [Sample.NN; Sample.N; Sample.P] = [Sample.P]
  /\ fst (rollback 11 (applyAll (crypto := Sample.crypto)
                         [Sample.NN; Sample.N; Sample.P] newDidCache)) = ok tt
  /\ JsMap.get (Sample.hash Sample.N)
       (nextVersion (applyAll (crypto := Sample.crypto)
                       [Sample.NN; Sample.N; Sample.P] newDidCache))
     = Some (Sample.hash Sample.NN)
  /\ JsMap.get (Sample.hash Sample.N)
       (nextVersion (rollbackAndReplay (crypto := Sample.crypto) 11
                       [Sample.NN; Sample.N; Sample.P]))
     = None.
Proof. repeat split; vm_compute; reflexivity. Qed.

(* ================================================================== *)
(** * [getHash] and [first] *)

Lemma getHash_content {crypto : Crypto} (op : WriteOperation.t) :
  getHash op =
  Base58_encode
    (Multihash_hash
       (match WriteOperation.type op with
        | Create => Buffer_from (WriteOperation.encodedPayload op)
        | _ => WriteOperation.operationBuffer op
        end) 18).
Proof. unfold getHash. now destruct (WriteOperation.type op). Qed.

(** C8 (defect in the code).  [getHash] hashes the encoded payload of a
    create and the whole buffer of any other operation, always with the
    multihash code 18; for an operation of block 150, where the sample
    protocol table selects code 22, the hash is not the one made with the
    code of the table. *)
Theorem getHash_ignores_protocol :
  WriteOperation.blockNumber Sample.late = Some 150
  /\ Protocol.hashAlgorithmCode (getProtocol (RooterImports := Sample.imports) 150) = 22
  /\ Sample.hash Sample.late
     = Base58_encode (Crypto := Sample.crypto)
         (Multihash_hash (Crypto := Sample.crypto)
            (WriteOperation.operationBuffer Sample.late) 18)
  /\ Sample.hash Sample.late
     <> Base58_encode (Crypto := Sample.crypto)
          (Multihash_hash (Crypto := Sample.crypto)
             (WriteOperation.operationBuffer Sample.late)
             (Protocol.hashAlgorithmCode (getProtocol (RooterImports := Sample.imports) 150))).
Proof.
  repeat split; try reflexivity.
  intros H. vm_compute in H. discriminate.
Qed.

Section FirstFacts.
Context {store : OperationStore}.

Lemma first_unknown fuel versionId this :
  JsMap.get versionId (opHashToInfo this) = None ->
  first fuel versionId this = Some (ok None).
Proof. unfold first. now intros ->. Qed.

(** The version that [first] returns is one where [previous] answers
    [undefined]. *)
Lemma first_loop_end fuel versionId this v :
  first_loop fuel versionId this = Some (ok (Some v)) -> previous v this = ok None.
Proof.
  revert versionId. induction fuel as [|fuel IH]; intros versionId; simpl; [discriminate|].
  destruct (previous versionId this) as [e|[prevVersionId|]] eqn:Hprev.
  - discriminate.
  - apply IH.
  - now intros [= <-].
Qed.

(** [previous] answers [undefined] for a version that is not stored, so
    the walk of [first] ends on the first unknown predecessor. *)
Lemma previous_unknown versionId this :
  JsMap.get versionId (opHashToInfo this) = None -> previous versionId this = ok None.
Proof. unfold previous. now intros ->. Qed.
(** A stored operation whose predecessor has no record: [first] returns
    the predecessor. *)
Lemma first_dangling fuel versionId this opInfo op prev :
  JsMap.get versionId (opHashToInfo this) = Some opInfo ->
  getOperation opInfo = ok op ->
  truthy (WriteOperation.previousOperationHash op) = Some prev ->
  JsMap.get prev (opHashToInfo this) = None ->
  first (S (S fuel)) versionId this = Some (ok (Some prev)).
Proof.
  intros Hv Hop Hprev Hunknown. unfold first. rewrite Hv.
  cbn [first_loop]. unfold previous at 1. rewrite Hv, Hop. cbn [result_bind ok].
  rewrite Hprev. now rewrite (previous_unknown _ _ Hunknown).
Qed.
End FirstFacts.

(** C9 (defect in the code).  [first] answers [undefined] for a version
    that is not stored, but for a stored operation whose predecessor was
    never applied it returns that predecessor, which is not a key of
    [opHashToInfo]. *)
Theorem first_returns_unknown_version :
  first (store := Sample.store) 2
    "unknown-version" Sample.orphanCache = Some (ok None)
  /\ (exists info,
        JsMap.get (Sample.hash Sample.orphan) (opHashToInfo Sample.orphanCache) = Some info)
  /\ first (store := Sample.store) 2
       (Sample.hash Sample.orphan) Sample.orphanCache
     = Some (ok (Some "unknown-version"))
  /\ JsMap.get "unknown-version" (opHashToInfo Sample.orphanCache) = None.
Proof.
  repeat split; try reflexivity.
  eexists. reflexivity.
Qed.

(* ================================================================== *)
(** * The Rooter tick *)

Local Open Scope list_scope.

Lemma array_set_app (filled rest : BufferArray) (y x : option Buffer) :
  array_set (filled ++ y :: rest) (List.length filled) x = filled ++ x :: rest.
Proof. induction filled as [|z filled IH]; simpl; [reflexivity|now rewrite IH]. Qed.

Lemma arrivals_added (arrivals : list Buffer) (this : Rooter) :
  fold_left (fun r x => add x r) arrivals this
  = {| operations := operations this ++ arrivals; processing := processing this |}.
Proof.
  revert this. induction arrivals as [|x arrivals IH]; intros this; simpl.
  - rewrite app_nil_r. now destruct this.
  - rewrite IH. simpl. unfold Deque_push. now rewrite <- app_assoc.
Qed.

Lemma await_spec {A : Type} (response : result A) (arrivals : list Buffer) (this : Rooter) :
  await response arrivals this
  = (match response with
     | inl e => Thrown e
     | inr a => Normal a
     end,
     {| operations := operations this ++ arrivals; processing := processing this |}).
Proof. unfold await, lift. rewrite arrivals_added. now destruct response. Qed.

Section RooterFacts.
Context {imports : RooterImports}.

(** The loop moves the [remaining] oldest operations, in order, into the
    slots that follow the filled ones. *)
Lemma getBatch_loop_spec remaining : forall (filled queue : list Buffer),
  (remaining <= List.length queue)%nat ->
  getBatch_loop remaining (List.length filled)
    (List.map Some filled ++ repeat None remaining) queue
  = (List.map Some (filled ++ firstn remaining queue), skipn remaining queue).
Proof.
  induction remaining as [|remaining IH]; intros filled queue Hlen; simpl.
  - now rewrite !app_nil_r.
  - destruct queue as [|x queue]; simpl in *; [lia|].
    assert (Hset : array_set (List.map Some filled ++ None :: repeat None remaining)
                     (List.length filled) (Some x)
                   = List.map Some filled ++ Some x :: repeat None remaining).
    { rewrite <- (length_map Some filled). apply array_set_app. }
    rewrite Hset.
    specialize (IH (filled ++ [x]) queue ltac:(lia)).
    rewrite length_app, Nat.add_1_r, map_app in IH. simpl in IH.
    rewrite <- !app_assoc in IH. simpl in IH. exact IH.
Qed.

Lemma getBatch_drain_spec latestBlock this :
  getBatch_drain latestBlock this
  = (Normal (List.map Some (firstn (batchSizeFor latestBlock (operations this))
                              (operations this))),
     {| operations := skipn (batchSizeFor latestBlock (operations this)) (operations this);
        processing := processing this |}).
Proof.
  unfold getBatch_drain, batchSizeFor.
  set (cap := Protocol.maxOperationsPerBatch _).
  set (queue := operations this).
  assert (Hsize : (if Nat.ltb cap (List.length queue) then cap else List.length queue)
                  = Nat.min (List.length queue) cap).
  { destruct (Nat.ltb_spec cap (List.length queue)); lia. }
  rewrite Hsize.
  pose proof (getBatch_loop_spec (Nat.min (List.length queue) cap) [] queue
                ltac:(lia)) as Hloop.
  simpl in Hloop. rewrite Hloop. reflexivity.
Qed.

Lemma getBatch_spec env this latestBlock :
  getLastBlock_response env = ok latestBlock ->
  getBatch env this
  = (Normal (List.map Some
               (firstn (batchSizeFor latestBlock (operations this ++ getLastBlock_arrivals env))
                       (operations this ++ getLastBlock_arrivals env))),
     {| operations :=
          skipn (batchSizeFor latestBlock (operations this ++ getLastBlock_arrivals env))
                (operations this ++ getLastBlock_arrivals env);
        processing := processing this |}).
Proof.
  intros Hblock. unfold getBatch, bind, await, lift.
  rewrite Hblock, arrivals_added. unfold ok.
  now rewrite getBatch_drain_spec.
Qed.

Lemma getBatch_throws env this e :
  getLastBlock_response env = throw e ->
  getBatch env this
  = (Thrown e, {| operations := operations this ++ getLastBlock_arrivals env;
                  processing := processing this |}).
Proof.
  intros Hblock. unfold getBatch, bind, await, lift.
  now rewrite Hblock, arrivals_added.
Qed.

(** C5.  When the ledger has answered with [latestBlock], the batch that
    [getBatch] assembles holds exactly min(queue length at drain time,
    maxOperationsPerBatch of [getProtocol(latestBlock.blockNumber + 1)])
    operations, the oldest of the queue in their order, and these are
    removed from the queue. *)
Theorem getBatch_cap_fifo (env : TickEnv) (this : Rooter) (latestBlock : Block.t) :
  getLastBlock_response env = ok latestBlock ->
  let queue := operations this ++ getLastBlock_arrivals env in
  let cap := Protocol.maxOperationsPerBatch
               (getProtocol (Block.blockNumber latestBlock + 1)) in
  exists batch this',
    getBatch env this = (Normal batch, this')
    /\ List.length batch = Nat.min (List.length queue) cap
    /\ batch = List.map Some (firstn (Nat.min (List.length queue) cap) queue)
    /\ (forall i, (i < List.length batch)%nat ->
          nth_error batch i = option_map Some (nth_error queue i))
    /\ operations this' = skipn (Nat.min (List.length queue) cap) queue
    /\ processing this' = processing this.
Proof.
  intros Hblock queue cap.
  rewrite (getBatch_spec _ _ _ Hblock).
  fold queue. unfold batchSizeFor. fold cap.
  do 2 eexists. split; [reflexivity|].
  assert (Hlen : List.length (List.map Some (firstn (Nat.min (List.length queue) cap) queue))
                 = Nat.min (List.length queue) cap).
  { rewrite length_map, length_firstn. lia. }
  repeat split; auto.
  intros i Hi. rewrite Hlen in Hi.
  rewrite nth_error_map, nth_error_firstn.
  destruct (Nat.ltb_spec i (Nat.min (List.length queue) cap)); [reflexivity|lia].
Qed.

(** The steps after [getBatch] add to the queue only what arrives
    during the writes they reach, and leave the flag alone. *)
Lemma rootOperations_anchor_spec env batch this :
  exists o this' later,
    rootOperations_anchor env batch this = (o, this')
    /\ operations this' = operations this ++ later
    /\ processing this' = processing this
    /\ In later [ [];
                  cas_write_batch_arrivals env;
                  cas_write_batch_arrivals env ++ cas_write_anchor_arrivals env;
                  cas_write_batch_arrivals env ++ cas_write_anchor_arrivals env
                    ++ blockchain_write_arrivals env ].
Proof.
  unfold rootOperations_anchor.
  destruct (Nat.eqb (List.length batch) 0).
  { exists Returned, this, []. rewrite app_nil_r. simpl. auto. }
  unfold bind, lift.
  destruct (BatchFile_fromOperations_toBuffer batch) as [e|batchBuffer].
  { exists (Thrown e), this, []. rewrite app_nil_r. simpl. auto. }
  rewrite (await_spec (cas_write_batch_response env batchBuffer)).
  destruct (cas_write_batch_response env batchBuffer) as [e|batchFileHash].
  { do 2 eexists. exists (cas_write_batch_arrivals env).
    split; [reflexivity|]. simpl. auto 8. }
  destruct (MerkleTree_create_rootHash batch) as [e|merkleRoot].
  { do 2 eexists. exists (cas_write_batch_arrivals env).
    split; [reflexivity|]. simpl. auto 8. }
  rewrite await_spec.
  destruct (cas_write_anchor_response env _) as [e|anchorFileAddress].
  { do 2 eexists.
    exists (cas_write_batch_arrivals env ++ cas_write_anchor_arrivals env).
    split; [reflexivity|]. simpl.
    split; [now rewrite app_assoc|]. split; [reflexivity|]. auto 8. }
  rewrite await_spec.
  do 2 eexists.
  exists (cas_write_batch_arrivals env ++ cas_write_anchor_arrivals env
            ++ blockchain_write_arrivals env).
  split; [reflexivity|]. simpl.
  split; [now rewrite !app_assoc|]. split; [reflexivity|]. auto 8.
Qed.

(** A tick that finds [processing] set returns at once and changes
    nothing. *)
Lemma rootOperations_busy env this :
  processing this = true -> rootOperations env this = (Returned, this).
Proof. intros H. unfold rootOperations. now rewrite H. Qed.

(** C6.  A tick that starts with [processing] unset never throws and
    ends with [processing] unset, whichever step fails.  Once the ledger
    has answered, the operations drained by [getBatch] stay out of the
    queue: what the queue holds at the end is what [getBatch] left in it,
    followed by the operations added while the tick was suspended on the
    writes it reached. *)
Theorem rootOperations_failure_policy (env : TickEnv) (this : Rooter) :
  processing this = false ->
  exists o this',
    rootOperations env this = (o, this')
    /\ (forall e, o <> Thrown e)
    /\ processing this' = false
    /\ forall latestBlock, getLastBlock_response env = ok latestBlock ->
       let queue := operations this ++ getLastBlock_arrivals env in
       let n := Nat.min (List.length queue)
                  (Protocol.maxOperationsPerBatch
                     (getProtocol (Block.blockNumber latestBlock + 1))) in
       exists later,
         operations this' = skipn n queue ++ later
         /\ In later [ [];
                       cas_write_batch_arrivals env;
                       cas_write_batch_arrivals env ++ cas_write_anchor_arrivals env;
                       cas_write_batch_arrivals env ++ cas_write_anchor_arrivals env
                         ++ blockchain_write_arrivals env ]
         /\ List.length (operations this')
            = (List.length queue - n + List.length later)%nat.
Proof.
  intros Hidle. unfold rootOperations. rewrite Hidle.
  unfold try_catch_finally, rootOperations_body, bind.
  unfold set_processing at 1. cbv beta.
  destruct (getLastBlock_response env) as [e|latestBlock] eqn:Hblock.
  { rewrite (getBatch_throws _ _ _ Hblock). simpl.
    do 2 eexists. split; [reflexivity|]. repeat split; discriminate. }
  rewrite (getBatch_spec _ _ latestBlock Hblock). simpl operations. simpl processing.
  unfold batchSizeFor.
  match goal with
  | |- context [rootOperations_anchor env ?batch ?st] =>
      destruct (rootOperations_anchor_spec env batch st)
        as (o & this1 & later & -> & Hqueue & Hflag & Hlater)
  end.
  simpl in Hqueue.
  assert (Hcaught : exists o2 this2,
             match o with
             | Thrown e => ret tt this1
             | _ => (o, this1)
             end = (o2, this2)
             /\ (forall e, o2 <> Thrown e) /\ operations this2 = operations this1).
  { destruct o as [[]| |e]; do 2 eexists; repeat split; discriminate. }
  destruct Hcaught as (o2 & this2 & -> & Ho2 & Hsame).
  unfold set_processing. do 2 eexists. split; [reflexivity|].
  split; [exact Ho2|]. split; [reflexivity|].
  intros latestBlock0 [= <-]. simpl. exists later. rewrite Hsame, Hqueue.
  repeat split; auto.
  now rewrite length_app, length_skipn.
Qed.
End RooterFacts.

Lemma getBatch_cap_fifo_witness :
  exists this',
    getBatch (imports := Sample.imports) Sample.casDown Sample.threeQueued
    = (Normal [Some (Buffer_from "a"); Some (Buffer_from "b")], this')
    /\ operations this' = [Buffer_from "c"].
Proof.
  destruct (getBatch_cap_fifo (imports := Sample.imports) Sample.casDown
              Sample.threeQueued (Block.mk 7) eq_refl)
    as (batch & this' & Hrun & _ & Hbatch & _ & Hqueue & _).
  exists this'. split; [|exact Hqueue].
  rewrite Hrun, Hbatch. reflexivity.
Defined.

Lemma rootOperations_failure_policy_witness :
  exists o this',
    rootOperations (imports := Sample.imports) Sample.casDown Sample.threeQueued = (o, this')
    /\ (forall e, o <> Thrown e)
    /\ processing this' = false
    /\ List.length (operations this') = 2%nat.
Proof.
  destruct (rootOperations_failure_policy (imports := Sample.imports) Sample.casDown
              Sample.threeQueued eq_refl)
    as (o & this' & Hrun & Hcaught & Hflag & _).
  exists o, this'. repeat split; auto.
  vm_compute in Hrun. injection Hrun as <- <-. reflexivity.
Defined.

(* ================================================================== *)
(** * Further properties of [earlier] and [apply] *)

(** X1.  [earlier] is a strict order on the pair (transactionNumber,
    operationIndex): irreflexive, asymmetric and transitive, and two
    timestamps of which neither is earlier agree on that pair.  It does
    not look at [blockNumber]. *)
Theorem earlier_strict_order :
  (forall ts, earlier ts ts = false)
  /\ (forall ts1 ts2, earlier ts1 ts2 = true -> earlier ts2 ts1 = false)
  /\ (forall ts1 ts2 ts3,
        earlier ts1 ts2 = true -> earlier ts2 ts3 = true -> earlier ts1 ts3 = true)
  /\ (forall ts1 ts2,
        earlier ts1 ts2 = false -> earlier ts2 ts1 = false ->
        OperationTimestamp.transactionNumber ts1 = OperationTimestamp.transactionNumber ts2
        /\ OperationTimestamp.operationIndex ts1 = OperationTimestamp.operationIndex ts2)
  /\ (forall b1 b2 tx idx,
        earlier (OperationTimestamp.mk b1 tx idx) (OperationTimestamp.mk b2 tx idx) = false).
Proof.
  repeat split; intros.
  - apply earlier_irrefl.
  - order_timestamps.
  - order_timestamps.
  - order_timestamps.
  - order_timestamps.
  - apply earlier_false. simpl. lia.
Qed.

Lemma earlier_strict_order_witness :
  earlier (OperationTimestamp.mk 9 10 0) (OperationTimestamp.mk 3 12 0) = true
  /\ OperationTimestamp.transactionNumber (OperationTimestamp.mk 1 5 2)
     = OperationTimestamp.transactionNumber (OperationTimestamp.mk 7 5 2).
Proof.
  destruct earlier_strict_order as (_ & _ & Htrans & Htie & _).
  split.
  - apply (Htrans _ (OperationTimestamp.mk 4 10 1)); reflexivity.
  - apply (Htie (OperationTimestamp.mk 1 5 2) (OperationTimestamp.mk 7 5 2)); reflexivity.
Defined.

Section ApplyMore.
Context {crypto : Crypto}.

Lemma apply_checked_nextVersion op opInfo this :
  nextVersion (snd (apply_checked op opInfo this)) = nextVersion this
  \/ exists prev, chainPrev op = Some prev
       /\ nextVersion (snd (apply_checked op opInfo this))
          = JsMap.set prev (getHash op) (nextVersion this).
Proof.
  unfold apply_checked.
  destruct (match JsMap.get (getHash op) (opHashToInfo this) with
            | Some _ => _ | None => _ end); [now left|].
  destruct (chainPrev op) as [prev|]; [|now left].
  unfold applyVersionChainUpdates; simpl.
  destruct (JsMap.get prev (nextVersion this)) as [cur|]; [|right; eauto].
  destruct (JsMap.get cur _) as [curInfo|]; [|now left].
  destruct (earlier _ _); [now left|right; eauto].
Qed.

(** What one call does to the two maps, in any cache. *)
Lemma apply_maps op this :
  (opHashToInfo (snd (apply op this)) = opHashToInfo this
   \/ exists opInfo,
        infoOf op = Some opInfo
        /\ (forall stored, JsMap.get (getHash op) (opHashToInfo this) = Some stored ->
              earlier (OperationInfo.timestamp stored) (OperationInfo.timestamp opInfo)
              = false)
        /\ opHashToInfo (snd (apply op this))
           = JsMap.set (getHash op) opInfo (opHashToInfo this))
  /\ (nextVersion (snd (apply op this)) = nextVersion this
      \/ exists prev, chainPrev op = Some prev
           /\ nextVersion (snd (apply op this))
              = JsMap.set prev (getHash op) (nextVersion this)).
Proof.
  destruct (timestampOf op) as [ts|] eqn:Hts.
  2:{ destruct (apply_invalid op this Hts) as (e & -> & _). simpl. auto. }
  destruct (timestampOf_infoOf _ _ Hts) as (opInfo & Hinfo & _).
  rewrite (apply_valid _ _ _ Hinfo).
  split; [|apply apply_checked_nextVersion].
  unfold apply_checked.
  destruct (JsMap.get (getHash op) (opHashToInfo this)) as [stored|] eqn:Hstored.
  - destruct (earlier (OperationInfo.timestamp stored) (OperationInfo.timestamp opInfo))
      eqn:Hdup; [now left|].
    right. exists opInfo. split; [exact Hinfo|]. split; [now intros ? [= <-]|].
    destruct (chainPrev op) as [prev|]; [|reflexivity].
    unfold applyVersionChainUpdates; simpl.
    destruct (JsMap.get prev (nextVersion this)) as [cur|]; [|reflexivity].
    destruct (JsMap.get cur _) as [curInfo|]; [|reflexivity].
    destruct (earlier (OperationInfo.timestamp curInfo) _); reflexivity.
  - right. exists opInfo. split; [exact Hinfo|]. split; [discriminate|].
    destruct (chainPrev op) as [prev|]; [|reflexivity].
    unfold applyVersionChainUpdates; simpl.
    destruct (JsMap.get prev (nextVersion this)) as [cur|]; [|reflexivity].
    destruct (JsMap.get cur _) as [curInfo|]; [|reflexivity].
    destruct (earlier (OperationInfo.timestamp curInfo) _); reflexivity.
Qed.

(** X2.  One call of [apply] changes at most the record filed under the
    hash of its operation and the link filed under the predecessor of its
    operation, whatever the cache and whether or not the call throws. *)
Theorem apply_frame (op : WriteOperation.t) (this : DidCacheImpl) (k : string) :
  (k <> getHash op ->
   JsMap.get k (opHashToInfo (snd (apply op this))) = JsMap.get k (opHashToInfo this))
  /\ (chainPrev op <> Some k ->
      JsMap.get k (nextVersion (snd (apply op this))) = JsMap.get k (nextVersion this)).
Proof.
  destruct (apply_maps op this) as [Hinfo Hnext]. split.
  - intros Hk. destruct Hinfo as [->|(opInfo & _ & _ & ->)]; [reflexivity|].
    apply JsMap_get_set_neq. intros E. apply Hk. now symmetry.
  - intros Hk. destruct Hnext as [->|(prev & Hprev & ->)]; [reflexivity|].
    apply JsMap_get_set_neq. intros E. apply Hk. rewrite <- E. exact Hprev.
Qed.

Lemma apply_never_forgets_step op this k :
  (forall info, JsMap.get k (opHashToInfo this) = Some info ->
     exists info', JsMap.get k (opHashToInfo (snd (apply op this))) = Some info'
       /\ notLater (OperationInfo.timestamp info') (OperationInfo.timestamp info))
  /\ (forall next, JsMap.get k (nextVersion this) = Some next ->
      exists next', JsMap.get k (nextVersion (snd (apply op this))) = Some next').
Proof.
  destruct (apply_maps op this) as [Hinfo Hnext]. split.
  - intros info Hk.
    destruct Hinfo as [->|(opInfo & _ & Hnodup & ->)].
    + exists info. split; [exact Hk|apply earlier_irrefl].
    + rewrite JsMap_get_set.
      destruct (String.eqb_spec (getHash op) k) as [Heq|Hne].
      * exists opInfo. split; [reflexivity|]. apply Hnodup. now rewrite Heq.
      * exists info. split; [exact Hk|apply earlier_irrefl].
  - intros next Hk.
    destruct Hnext as [->|(prev & _ & ->)]; [eauto|].
    rewrite JsMap_get_set. destruct (String.eqb prev k); eauto.
Qed.

(** X3.  [apply] never forgets: through any sequence of calls, from any
    cache, a hash that has a record keeps one, with a timestamp that is
    never later than before, and a version that has a next version keeps
    one. *)
Theorem applyAll_never_forgets (ops : list WriteOperation.t) (this : DidCacheImpl)
    (k : string) :
  (forall info, JsMap.get k (opHashToInfo this) = Some info ->
     exists info', JsMap.get k (opHashToInfo (applyAll ops this)) = Some info'
       /\ notLater (OperationInfo.timestamp info') (OperationInfo.timestamp info))
  /\ (forall next, JsMap.get k (nextVersion this) = Some next ->
      exists next', JsMap.get k (nextVersion (applyAll ops this)) = Some next').
Proof.
  induction ops as [|op ops IH] using rev_ind.
  - split; intros x Hk; exists x; auto. split; [exact Hk|apply earlier_irrefl].
  - rewrite applyAll_snoc. destruct IH as [IHinfo IHnext].
    destruct (apply_never_forgets_step op (applyAll ops this) k) as [Sinfo Snext].
    split.
    + intros info Hk. destruct (IHinfo _ Hk) as (info1 & Hk1 & Hle1).
      destruct (Sinfo _ Hk1) as (info2 & Hk2 & Hle2).
      exists info2. split; [exact Hk2|]. eapply notLater_trans; eauto.
    + intros next Hk. destruct (IHnext _ Hk) as (next1 & Hk1). eauto.
Qed.

(** X4.  In a cache whose [nextVersion] targets are all stored, a call
    that returns the hash of an operation with a predecessor leaves that
    predecessor with a next version, which is stored with a timestamp not
    later than the operation's: the operation itself or the update that
    beats it. *)
Theorem apply_links_predecessor (op : WriteOperation.t) (opInfo : OperationInfo.t)
    (prev : VersionId) (this : DidCacheImpl) :
  nextVersionClosed this ->
  infoOf op = Some opInfo ->
  chainPrev op = Some prev ->
  fst (apply op this) = ok (Some (getHash op)) ->
  exists nextVersionId nextInfo,
    next prev (snd (apply op this)) = Some nextVersionId
    /\ JsMap.get nextVersionId (opHashToInfo (snd (apply op this))) = Some nextInfo
    /\ notLater (OperationInfo.timestamp nextInfo) (OperationInfo.timestamp opInfo)
    /\ (nextVersionId = getHash op \/ JsMap.get prev (nextVersion this) = Some nextVersionId).
Proof.
  intros Hclosed Hinfo Hprev. rewrite (apply_valid _ _ _ Hinfo). unfold next.
  destruct (apply_checked_inv op opInfo this Hclosed)
    as [(stored & _ & _ & ->)|(_ & _ & Hi & Hn)]; [discriminate|].
  intros _. rewrite Hi.
  destruct Hn as [[Hp _]|[(p & Hp & _ & ->)
                         |(p & cur & curInfo & Hp & Hcur & HcurInfo & [[Hcmp ->]|[_ ->]])]].
  - congruence.
  - assert (p = prev) by congruence. subst p.
    exists (getHash op), opInfo. rewrite !JsMap_get_set_eq.
    repeat split; auto. apply earlier_irrefl.
  - assert (p = prev) by congruence. subst p.
    exists cur, curInfo. repeat split; auto.
    unfold notLater. order_timestamps.
  - assert (p = prev) by congruence. subst p.
    exists (getHash op), opInfo. rewrite !JsMap_get_set_eq.
    repeat split; auto. apply earlier_irrefl.
Qed.

Lemma appliedAt_perm ops ops' h ts :
  Permutation ops ops' -> appliedAt ops h ts -> appliedAt ops' h ts.
Proof.
  intros Hperm (o & Hin & H). exists o. split; [|exact H].
  eapply Permutation_in; eauto.
Qed.

(** X5.  The order of the calls does not matter to the timestamps kept:
    two sequences with the same calls in any order store records for the
    same hashes, with the same (transactionNumber, operationIndex). *)
Theorem applyAll_order_independent (ops ops' : list WriteOperation.t) (h : OperationHash) :
  Permutation ops ops' ->
  match JsMap.get h (opHashToInfo (applyAll ops newDidCache)),
        JsMap.get h (opHashToInfo (applyAll ops' newDidCache)) with
  | Some info, Some info' =>
      OperationTimestamp.transactionNumber (OperationInfo.timestamp info)
      = OperationTimestamp.transactionNumber (OperationInfo.timestamp info')
      /\ OperationTimestamp.operationIndex (OperationInfo.timestamp info)
         = OperationTimestamp.operationIndex (OperationInfo.timestamp info')
  | None, None => True
  | _, _ => False
  end.
Proof.
  intros Hperm.
  pose proof (applyAll_Earliest ops) as [Hs Ha].
  pose proof (applyAll_Earliest ops') as [Hs' Ha'].
  assert (Hperm' : Permutation ops' ops) by now apply Permutation_sym.
  destruct (JsMap.get h (opHashToInfo (applyAll ops newDidCache))) as [info|] eqn:H1;
    destruct (JsMap.get h (opHashToInfo (applyAll ops' newDidCache))) as [info'|] eqn:H2.
  - destruct (Hs _ _ H1) as [(o & Hin & Hh & Hinfo) Hmin].
    destruct (Hs' _ _ H2) as [(o' & Hin' & Hh' & Hinfo') Hmin'].
    assert (Hle : earlier (OperationInfo.timestamp info) (OperationInfo.timestamp info')
                  = false).
    { apply Hmin'. apply (appliedAt_perm ops); auto.
      exists o. auto using infoOf_timestampOf. }
    assert (Hle' : earlier (OperationInfo.timestamp info') (OperationInfo.timestamp info)
                   = false).
    { apply Hmin. apply (appliedAt_perm ops'); auto.
      exists o'. auto using infoOf_timestampOf. }
    order_timestamps.
  - destruct (Hs _ _ H1) as [(o & Hin & Hh & Hinfo) _].
    destruct (Ha' h (OperationInfo.timestamp info)) as [info' Hget'].
    { apply (appliedAt_perm ops); auto. exists o. auto using infoOf_timestampOf. }
    congruence.
  - destruct (Hs' _ _ H2) as [(o & Hin & Hh & Hinfo) _].
    destruct (Ha h (OperationInfo.timestamp info')) as [info Hget].
    { apply (appliedAt_perm ops'); auto. exists o. auto using infoOf_timestampOf. }
    congruence.
  - exact I.
Qed.

Lemma hashDeterminesPrev_perm ops ops' :
  Permutation ops ops' -> hashDeterminesPrev ops -> hashDeterminesPrev ops'.
Proof.
  intros Hperm Hdet o1 o2 H1 H2.
  apply Permutation_sym in Hperm.
  apply Hdet; eapply Permutation_in; eauto.
Qed.

(** X6.  The order of the calls does not matter to the fork that wins, up
    to ties: two sequences with the same calls in any order, in which an
    operation hash names one operation, link the same versions to a next
    version, and the next versions chosen for one predecessor are stored
    with the same (transactionNumber, operationIndex). *)
Theorem nextVersion_order_independent (ops ops' : list WriteOperation.t)
    (prev : VersionId) :
  hashDeterminesPrev ops ->
  Permutation ops ops' ->
  match JsMap.get prev (nextVersion (applyAll ops newDidCache)),
        JsMap.get prev (nextVersion (applyAll ops' newDidCache)) with
  | Some n, Some n' =>
      exists info info',
        JsMap.get n (opHashToInfo (applyAll ops newDidCache)) = Some info
        /\ JsMap.get n' (opHashToInfo (applyAll ops' newDidCache)) = Some info'
        /\ OperationTimestamp.transactionNumber (OperationInfo.timestamp info)
           = OperationTimestamp.transactionNumber (OperationInfo.timestamp info')
        /\ OperationTimestamp.operationIndex (OperationInfo.timestamp info)
           = OperationTimestamp.operationIndex (OperationInfo.timestamp info')
  | None, None => True
  | _, _ => False
  end.
Proof.
  intros Hdet Hperm.
  assert (Hperm' : Permutation ops' ops) by now apply Permutation_sym.
  pose proof (hashDeterminesPrev_perm _ _ Hperm Hdet) as Hdet'.
  pose proof (applyAll_Earliest ops) as [Hs _].
  pose proof (applyAll_Earliest ops') as [Hs' _].
  pose proof (applyAll_ForkResolved ops Hdet) as [Hn Hl].
  pose proof (applyAll_ForkResolved ops' Hdet') as [Hn' Hl'].
  assert (Hattained : forall l c n info,
             hashDeterminesPrev l ->
             Earliest l c ->
             ForkResolved l c ->
             JsMap.get prev (nextVersion c) = Some n ->
             JsMap.get n (opHashToInfo c) = Some info ->
             exists o, In o l /\ chainPrev o = Some prev
                       /\ timestampOf o = Some (OperationInfo.timestamp info)).
  { intros l c n info Hd [Hsl _] [Hnl _] Hg Hi.
    destruct (Hnl _ _ Hg) as [(o & Hin & Hh & Hp & _) _].
    destruct (Hsl _ _ Hi) as [(o' & Hin' & Hh' & Hinfo') _].
    exists o'. split; [exact Hin'|]. split; [|now apply infoOf_timestampOf].
    transitivity (chainPrev o); [|exact Hp]. apply Hd; auto. congruence. }
  destruct (JsMap.get prev (nextVersion (applyAll ops newDidCache))) as [n|] eqn:H1;
    destruct (JsMap.get prev (nextVersion (applyAll ops' newDidCache))) as [n'|] eqn:H2.
  - destruct (Hn _ _ H1) as [_ (info & Hi & Hmin)].
    destruct (Hn' _ _ H2) as [_ (info' & Hi' & Hmin')].
    exists info, info'. split; [exact Hi|]. split; [exact Hi'|].
    destruct (Hattained ops _ n info Hdet (applyAll_Earliest ops)
                (applyAll_ForkResolved ops Hdet) H1 Hi) as (o & Hin & Hp & Hts).
    destruct (Hattained ops' _ n' info' Hdet' (applyAll_Earliest ops')
                (applyAll_ForkResolved ops' Hdet') H2 Hi') as (o' & Hin' & Hp' & Hts').
    assert (Hle : earlier (OperationInfo.timestamp info) (OperationInfo.timestamp info')
                  = false).
    { exact (Hmin' o _ (Permutation_in _ Hperm Hin) Hp Hts). }
    assert (Hle' : earlier (OperationInfo.timestamp info') (OperationInfo.timestamp info)
                   = false).
    { exact (Hmin o' _ (Permutation_in _ Hperm' Hin') Hp' Hts'). }
    order_timestamps.
  - destruct (Hn _ _ H1) as [(o & Hin & _ & Hp & Hvalid) _].
    destruct (timestampOf o) as [ts|] eqn:Hts; [|now elim Hvalid].
    destruct (Hl' o ts prev) as [n' Hg']; auto.
    { eapply Permutation_in; eauto. }
    congruence.
  - destruct (Hn' _ _ H2) as [(o & Hin & _ & Hp & Hvalid) _].
    destruct (timestampOf o) as [ts|] eqn:Hts; [|now elim Hvalid].
    destruct (Hl o ts prev) as [n Hg]; auto.
    { eapply Permutation_in; eauto. }
    congruence.
  - exact I.
Qed.
End ApplyMore.

Lemma apply_frame_witness :
  JsMap.get (Sample.hash Sample.C)
    (opHashToInfo (snd (apply (crypto := Sample.crypto) Sample.U3 Sample.scenario6)))
  = JsMap.get (Sample.hash Sample.C) (opHashToInfo Sample.scenario6)
  /\ JsMap.get (Sample.hash Sample.C)
       (nextVersion (snd (apply (crypto := Sample.crypto) Sample.U3 Sample.scenario6)))
     = JsMap.get (Sample.hash Sample.C) (nextVersion Sample.scenario6).
Proof.
  destruct (apply_frame (crypto := Sample.crypto) Sample.U3 Sample.scenario6
              (Sample.hash Sample.C)) as [Hinfo Hnext].
  split.
  - apply Hinfo. intros H. vm_compute in H. discriminate.
  - apply Hnext. intros H. vm_compute in H. discriminate.
Defined.

Lemma applyAll_never_forgets_witness :
  exists info',
    JsMap.get (Sample.hash Sample.U1)
      (opHashToInfo (applyAll (crypto := Sample.crypto) [Sample.late; Sample.U3]
                       Sample.scenario6)) = Some info'
    /\ notLater (OperationInfo.timestamp info') (OperationTimestamp.mk 10 10 0).
Proof.
  destruct (applyAll_never_forgets (crypto := Sample.crypto) [Sample.late; Sample.U3]
              Sample.scenario6 (Sample.hash Sample.U1)) as [Hinfo _].
  apply (Hinfo (OperationInfo.mk
                  (string_of_list_byte (WriteOperation.operationBuffer Sample.U1))
                  Update (OperationTimestamp.mk 10 10 0))).
  reflexivity.
Defined.

Lemma apply_links_predecessor_witness :
  exists nextVersionId nextInfo,
    next (Sample.hash Sample.C)
      (snd (apply (crypto := Sample.crypto) Sample.U2
              (applyAll (crypto := Sample.crypto) [Sample.C; Sample.U1] newDidCache)))
    = Some nextVersionId
    /\ JsMap.get nextVersionId
         (opHashToInfo
            (snd (apply (crypto := Sample.crypto) Sample.U2
                    (applyAll (crypto := Sample.crypto) [Sample.C; Sample.U1] newDidCache))))
       = Some nextInfo
    /\ notLater (OperationInfo.timestamp nextInfo) (OperationTimestamp.mk 10 10 1).
Proof.
  destruct (apply_links_predecessor (crypto := Sample.crypto) Sample.U2
              (OperationInfo.mk
                 (string_of_list_byte (WriteOperation.operationBuffer Sample.U2))
                 Recover (OperationTimestamp.mk 10 10 1))
              (Sample.hash Sample.C)
              (applyAll (crypto := Sample.crypto) [Sample.C; Sample.U1] newDidCache))
    as (n & nextInfo & Hnext & Hinfo & Hle & _).
  - apply (applyAll_closed (crypto := Sample.crypto)).
  - reflexivity.
  - reflexivity.
  - reflexivity.
  - exists n, nextInfo. auto.
Defined.

Lemma applyAll_order_independent_witness :
  match JsMap.get (Sample.hash Sample.U1)
          (opHashToInfo (applyAll (crypto := Sample.crypto)
                           [Sample.C; Sample.U1; Sample.late] newDidCache)),
        JsMap.get (Sample.hash Sample.U1)
          (opHashToInfo (applyAll (crypto := Sample.crypto)
                           [Sample.late; Sample.U1; Sample.C] newDidCache)) with
  | Some info, Some info' =>
      OperationTimestamp.transactionNumber (OperationInfo.timestamp info)
      = OperationTimestamp.transactionNumber (OperationInfo.timestamp info')
      /\ OperationTimestamp.operationIndex (OperationInfo.timestamp info)
         = OperationTimestamp.operationIndex (OperationInfo.timestamp info')
  | None, None => True
  | _, _ => False
  end.
Proof.
  apply (applyAll_order_independent (crypto := Sample.crypto)
           [Sample.C; Sample.U1; Sample.late] [Sample.late; Sample.U1; Sample.C]).
  apply (Permutation_rev [Sample.C; Sample.U1; Sample.late]).
Defined.

Lemma nextVersion_order_independent_witness :
  match JsMap.get (Sample.hash Sample.C)
          (nextVersion (applyAll (crypto := Sample.crypto)
                          [Sample.C; Sample.U1; Sample.U2; Sample.U3] newDidCache)),
        JsMap.get (Sample.hash Sample.C)
          (nextVersion (applyAll (crypto := Sample.crypto)
                          [Sample.U3; Sample.U2; Sample.U1; Sample.C] newDidCache)) with
  | Some n, Some n' =>
      exists info info',
        JsMap.get n (opHashToInfo (applyAll (crypto := Sample.crypto)
                                     [Sample.C; Sample.U1; Sample.U2; Sample.U3]
                                     newDidCache)) = Some info
        /\ JsMap.get n' (opHashToInfo (applyAll (crypto := Sample.crypto)
                                         [Sample.U3; Sample.U2; Sample.U1; Sample.C]
                                         newDidCache)) = Some info'
        /\ OperationTimestamp.transactionNumber (OperationInfo.timestamp info)
           = OperationTimestamp.transactionNumber (OperationInfo.timestamp info')
        /\ OperationTimestamp.operationIndex (OperationInfo.timestamp info)
           = OperationTimestamp.operationIndex (OperationInfo.timestamp info')
  | None, None => True
  | _, _ => False
  end.
Proof.
  apply (nextVersion_order_independent (crypto := Sample.crypto)
           [Sample.C; Sample.U1; Sample.U2; Sample.U3]
           [Sample.U3; Sample.U2; Sample.U1; Sample.C]).
  - exact Sample_scenario6_hashes.
  - apply (Permutation_rev [Sample.C; Sample.U1; Sample.U2; Sample.U3]).
Defined.

(* ================================================================== *)
(** * Further properties of [rollback] *)

Lemma JsMap_get_In {V : Type} (m : JsMap.t V) k v :
  JsMap.get k m = Some v -> In (k, v) m.
Proof.
  induction m as [|[k0 v0] m IH]; simpl; [discriminate|].
  destruct (String.eqb_spec k0 k) as [->|Hne].
  - intros [= ->]. now left.
  - intros H. right. auto.
Qed.

Lemma JsMap_get_delete_Some {V : Type} (m : JsMap.t V) k k' v :
  JsMap.get k' (JsMap.delete k m) = Some v -> JsMap.get k' m = Some v.
Proof. rewrite JsMap_get_delete. now destruct (String.eqb k k'). Qed.

Lemma predecessorsStored_spec this :
  predecessorsStored this = true ->
  forall prev next, JsMap.get prev (nextVersion this) = Some next ->
    exists info, JsMap.get prev (opHashToInfo this) = Some info.
Proof.
  unfold predecessorsStored. rewrite forallb_forall. intros H prev next Hget.
  specialize (H _ (JsMap_get_In _ _ _ Hget)). simpl in H.
  destruct (JsMap.get prev (opHashToInfo this)); [eauto|discriminate].
Qed.

Lemma allBelow_spec T this :
  allBelow T this = true ->
  forall k info, JsMap.get k (opHashToInfo this) = Some info ->
    OperationTimestamp.transactionNumber (OperationInfo.timestamp info) < T.
Proof.
  unfold allBelow. rewrite forallb_forall. intros H k info Hget.
  specialize (H _ (JsMap_get_In _ _ _ Hget)). simpl in H. now apply Z.ltb_lt.
Qed.

(** The walk over [nextVersion] only deletes. *)
Lemma rollback_nextVersion_loop_sub T this pending : forall m k v,
  JsMap.get k (snd (JsMap.forEach_loop (rollback_nextVersion_callback T this) pending m))
  = Some v ->
  JsMap.get k m = Some v.
Proof.
  induction pending as [|key rest IH]; intros m k v; simpl; [auto|].
  destruct (JsMap.get key m) as [value|]; [|apply IH].
  unfold rollback_nextVersion_callback at 1.
  destruct (JsMap.get key (opHashToInfo this)) as [opInfo|]; [|auto].
  destruct (_ >=? T).
  - intros H. apply IH in H. eapply JsMap_get_delete_Some, H.
  - apply IH.
Qed.

(** The walk does not throw when the key of every entry has a record. *)
Lemma rollback_nextVersion_loop_returns T this pending : forall m,
  (forall k v, JsMap.get k m = Some v ->
     exists info, JsMap.get k (opHashToInfo this) = Some info) ->
  fst (JsMap.forEach_loop (rollback_nextVersion_callback T this) pending m) = None.
Proof.
  induction pending as [|key rest IH]; intros m Hstored; simpl; [reflexivity|].
  destruct (JsMap.get key m) as [value|] eqn:Hkey; [|now apply IH].
  unfold rollback_nextVersion_callback at 1.
  destruct (Hstored _ _ Hkey) as [opInfo ->].
  destruct (_ >=? T); [|now apply IH].
  apply IH. intros k v H. apply JsMap_get_delete_Some in H. eauto.
Qed.

(** The walk changes nothing when those records are all below [T]. *)
Lemma rollback_nextVersion_loop_id T this pending : forall m,
  (forall k v, JsMap.get k m = Some v ->
     exists info, JsMap.get k (opHashToInfo this) = Some info
       /\ OperationTimestamp.transactionNumber (OperationInfo.timestamp info) < T) ->
  JsMap.forEach_loop (rollback_nextVersion_callback T this) pending m = (None, m).
Proof.
  induction pending as [|key rest IH]; intros m Hbelow; simpl; [reflexivity|].
  destruct (JsMap.get key m) as [value|] eqn:Hkey; [|now apply IH].
  unfold rollback_nextVersion_callback at 1.
  destruct (Hbelow _ _ Hkey) as (opInfo & -> & Hlt).
  destruct (Z.geb_spec (OperationTimestamp.transactionNumber (OperationInfo.timestamp opInfo)) T);
    [lia|now apply IH].
Qed.

Lemma rollback_opHashToInfo_loop_id T pending : forall (m : JsMap.t OperationInfo.t),
  (forall k info, JsMap.get k m = Some info ->
     OperationTimestamp.transactionNumber (OperationInfo.timestamp info) < T) ->
  JsMap.forEach_loop (rollback_opHashToInfo_callback T) pending m = (None, m).
Proof.
  induction pending as [|key rest IH]; intros m Hbelow; simpl; [reflexivity|].
  destruct (JsMap.get key m) as [value|] eqn:Hkey; [|now apply IH].
  unfold rollback_opHashToInfo_callback at 1.
  pose proof (Hbelow _ _ Hkey) as Hlt.
  destruct (Z.geb_spec (OperationTimestamp.transactionNumber (OperationInfo.timestamp value)) T);
    [lia|now apply IH].
Qed.

(** X7.  When [rollback(T)] returns, [opHashToInfo] holds exactly the
    records it held before whose transaction number is below [T]. *)
Theorem rollback_prunes_opHashToInfo (T : Z) (this this' : DidCacheImpl) :
  rollback T this = (ok tt, this') ->
  forall k info,
    JsMap.get k (opHashToInfo this') = Some info <->
    (JsMap.get k (opHashToInfo this) = Some info
     /\ OperationTimestamp.transactionNumber (OperationInfo.timestamp info) < T).
Proof.
  intros Hrun k info. rewrite (rollback_opHashToInfo _ _ _ Hrun k).
  destruct (JsMap.get k (opHashToInfo this)) as [stored|].
  - destruct (Z.geb_spec (OperationTimestamp.transactionNumber
                            (OperationInfo.timestamp stored)) T).
    + split; [discriminate|]. intros [[= ->] Hlt]. lia.
    + split; [intros [= ->]; split; [reflexivity|lia]|now intros [Hsame _]].
  - split; [discriminate|now intros [Hsame _]].
Qed.

(** X8.  [rollback] only removes: whether it returns or throws, every
    link and every record that the cache holds afterwards was there
    before, unchanged. *)
Theorem rollback_only_removes (T : Z) (this : DidCacheImpl) (k : string) :
  (forall next, JsMap.get k (nextVersion (snd (rollback T this))) = Some next ->
     JsMap.get k (nextVersion this) = Some next)
  /\ (forall info, JsMap.get k (opHashToInfo (snd (rollback T this))) = Some info ->
      JsMap.get k (opHashToInfo this) = Some info).
Proof.
  pose proof (rollback_nextVersion_loop_sub T this (JsMap.keys (nextVersion this))
                (nextVersion this) k) as Hsub.
  unfold rollback, JsMap.forEach in *.
  destruct (JsMap.forEach_loop (rollback_nextVersion_callback T this) _ _) as [[e|] nv].
  - simpl in *. split; auto.
  - destruct (rollback_opHashToInfo_loop T (JsMap.keys (opHashToInfo this))
                (opHashToInfo this)) as (m' & -> & Hget).
    simpl in *. split; [auto|].
    intros info. rewrite Hget.
    destruct (JsMap.get k (opHashToInfo this)) as [stored|]; [|discriminate].
    destruct (_ && _); [discriminate|auto].
Qed.

(** X9.  [rollback] returns, for any [T], when every version that has a
    next version has a record itself: the [TypeError] of the walk over
    [nextVersion] needs a link whose key has no record. *)
Theorem rollback_returns (T : Z) (this : DidCacheImpl) :
  predecessorsStored this = true -> fst (rollback T this) = ok tt.
Proof.
  intros Hstored.
  pose proof (rollback_nextVersion_loop_returns T this (JsMap.keys (nextVersion this))
                (nextVersion this) (predecessorsStored_spec _ Hstored)) as Hwalk.
  unfold rollback, JsMap.forEach in *.
  destruct (JsMap.forEach_loop (rollback_nextVersion_callback T this) _ _) as [[e|] nv];
    [discriminate|].
  destruct (rollback_opHashToInfo_loop T (JsMap.keys (opHashToInfo this))
              (opHashToInfo this)) as (m' & -> & _).
  reflexivity.
Qed.

(** X10.  A rollback to a transaction number above every stored one is
    a no-op: in such a cache, when every version that has a next version
    has a record, [rollback(T)] returns and leaves both maps as they
    were. *)
Theorem rollback_beyond_tip (T : Z) (this : DidCacheImpl) :
  predecessorsStored this = true ->
  allBelow T this = true ->
  rollback T this = (ok tt, this).
Proof.
  intros Hstored Hbelow.
  pose proof (predecessorsStored_spec _ Hstored) as Hs.
  pose proof (allBelow_spec _ _ Hbelow) as Hb.
  unfold rollback, JsMap.forEach.
  rewrite rollback_nextVersion_loop_id.
  - rewrite (rollback_opHashToInfo_loop_id T _ _ Hb). now destruct this.
  - intros k v Hk. destruct (Hs _ _ Hk) as [info Hinfo]. eauto.
Qed.

Lemma rollback_prunes_opHashToInfo_witness :
  JsMap.get (Sample.hash Sample.U2) (opHashToInfo (snd (rollback 11 Sample.scenario6)))
  = Some (OperationInfo.mk (string_of_list_byte (WriteOperation.operationBuffer Sample.U2))
            Recover (OperationTimestamp.mk 10 10 1)).
Proof.
  apply (rollback_prunes_opHashToInfo 11 Sample.scenario6
           (snd (rollback 11 Sample.scenario6)) eq_refl).
  split; [reflexivity|simpl; lia].
Defined.

Lemma rollback_only_removes_witness :
  JsMap.get (Sample.hash Sample.P) (nextVersion Sample.reversedChain)
  = Some (Sample.hash Sample.N).
Proof.
  apply (proj1 (rollback_only_removes 11 Sample.reversedChain (Sample.hash Sample.P))).
  reflexivity.
Defined.

Lemma rollback_returns_witness : fst (rollback 11 Sample.scenario6) = ok tt.
Proof. apply rollback_returns. reflexivity. Defined.

Lemma rollback_beyond_tip_witness :
  rollback 13 Sample.scenario6 = (ok tt, Sample.scenario6).
Proof. apply rollback_beyond_tip; reflexivity. Defined.

(* ================================================================== *)
(** * Further properties of the version chain: [last], [first], [lookup] *)

Lemma last_loop_tip this fuel : forall versionId tip,
  nextVersionClosed this ->
  (exists info, JsMap.get versionId (opHashToInfo this) = Some info) ->
  last_loop fuel versionId this = Some tip ->
  (exists info, JsMap.get tip (opHashToInfo this) = Some info)
  /\ next tip this = None.
Proof.
  induction fuel as [|fuel IH]; intros versionId tip Hclosed Hknown; simpl; [discriminate|].
  destruct (next versionId this) as [nextVersionId|] eqn:Hnext.
  - apply IH; [exact Hclosed|]. exact (Hclosed _ _ Hnext).
  - intros [= <-]. auto.
Qed.

(** X11.  In a cache whose [nextVersion] targets are all stored, as every
    cache built by [apply] is, the version that [last] returns has a
    record and has no next version. *)
Theorem last_returns_known_tip (fuel : nat) (versionId tip : VersionId)
    (this : DidCacheImpl) :
  nextVersionClosed this ->
  last fuel versionId this = Some (Some tip) ->
  (exists info, JsMap.get tip (opHashToInfo this) = Some info)
  /\ next tip this = None.
Proof.
  intros Hclosed. unfold last.
  destruct (JsMap.get versionId (opHashToInfo this)) as [info|] eqn:Hknown; [|discriminate].
  destruct (last_loop fuel versionId this) as [tip'|] eqn:Hloop; [|discriminate].
  intros [= <-]. eapply last_loop_tip; eauto.
Qed.

Lemma last_returns_known_tip_witness :
  (exists info, JsMap.get (Sample.hash Sample.U3) (opHashToInfo Sample.scenario6) = Some info)
  /\ next (Sample.hash Sample.U3) Sample.scenario6 = None.
Proof.
  apply (last_returns_known_tip 3 (Sample.hash Sample.C) (Sample.hash Sample.U3)
           Sample.scenario6).
  - apply (applyAll_closed (crypto := Sample.crypto)).
  - reflexivity.
Defined.

Section ChainMore.
Context {store : OperationStore}.

(** X12.  The version that [first] returns is one for which [previous]
    answers [undefined]: either it has no record, or its record leads to
    an operation that names no predecessor. *)
Theorem first_result (fuel : nat) (versionId root : VersionId) (this : DidCacheImpl) :
  first fuel versionId this = Some (ok (Some root)) ->
  previous root this = ok None
  /\ (JsMap.get root (opHashToInfo this) = None
      \/ exists opInfo op,
           JsMap.get root (opHashToInfo this) = Some opInfo
           /\ getOperation opInfo = ok op
           /\ truthy (WriteOperation.previousOperationHash op) = None).
Proof.
  unfold first.
  destruct (JsMap.get versionId (opHashToInfo this)) as [info|]; [|discriminate].
  intros Hloop. apply first_loop_end in Hloop. split; [exact Hloop|].
  unfold previous in Hloop.
  destruct (JsMap.get root (opHashToInfo this)) as [opInfo|]; [|now left].
  right. destruct (getOperation opInfo) as [e|op] eqn:Hop; [discriminate|].
  exists opInfo, op. split; [reflexivity|]. split; [exact Hop|].
  cbn [result_bind] in Hloop. unfold ok in Hloop. now injection Hloop.
Qed.

Context {docs : DocumentOps}.

(** X13.  [lookup] builds a document only from a complete chain: when it
    returns one for a version, that version has a record, and so has each
    predecessor named by the reconstructed operations, down to a record of
    type create. *)
Theorem lookup_complete_chain (fuel : nat) (didMethodName : string)
    (this : DidCacheImpl) : forall (versionId : VersionId) (doc : DidDocument),
  lookup fuel didMethodName (Some versionId) this = Some (ok (Some doc)) ->
  completeChain this versionId.
Proof.
  induction fuel as [|fuel IH]; intros versionId doc; simpl; [discriminate|].
  destruct (JsMap.get versionId (opHashToInfo this)) as [opInfo|] eqn:Hknown;
    [|discriminate].
  destruct (getOperation opInfo) as [e|op] eqn:Hop; [discriminate|].
  destruct (isInitialVersion opInfo) eqn:Hinit.
  - intros _. eapply completeChain_root; eauto.
  - destruct (WriteOperation.previousOperationHash op) as [prevVersion|] eqn:Hprev.
    + destruct (lookup fuel didMethodName (Some prevVersion) this)
        as [[e|[prevDidDoc|]]|] eqn:Hrec; try discriminate.
      intros _. eapply completeChain_link; eauto.
    + destruct fuel; simpl; discriminate.
Qed.

(** X14.  [resolve] returns a document only for a DID that has a record;
    the document is the one [lookup] builds for the version that [last]
    reaches from it, a version without a next version and with a complete
    chain. *)
Theorem resolve_known_did (fuel : nat) (didMethodName didUniquePortion : string)
    (this : DidCacheImpl) (doc : DidDocument) :
  resolve fuel didMethodName didUniquePortion this = Some (ok (Some doc)) ->
  (exists info, JsMap.get didUniquePortion (opHashToInfo this) = Some info)
  /\ exists latestVersion,
       last fuel didUniquePortion this = Some (Some latestVersion)
       /\ lookup fuel didMethodName (Some latestVersion) this = Some (ok (Some doc))
       /\ completeChain this latestVersion.
Proof.
  unfold resolve.
  destruct (last fuel didUniquePortion this) as [[latestVersion|]|] eqn:Hlast;
    try discriminate.
  intros Hlookup. split.
  - unfold last in Hlast.
    destruct (JsMap.get didUniquePortion (opHashToInfo this)); [eauto|discriminate].
  - exists latestVersion. repeat split; auto.
    eapply lookup_complete_chain, Hlookup.
Qed.
End ChainMore.

Lemma first_result_witness :
  previous (store := Sample.store) "unknown-version" Sample.orphanCache = ok None.
Proof.
  apply (first_result (store := Sample.store) 2 (Sample.hash Sample.orphan)
           "unknown-version" Sample.orphanCache).
  reflexivity.
Defined.

Lemma lookup_complete_chain_witness :
  completeChain (store := Sample.store) Sample.scenario6 (Sample.hash Sample.U3).
Proof.
  apply (lookup_complete_chain (store := Sample.store) (docs := Sample.docs)
           3 "sidetree" Sample.scenario6 (Sample.hash Sample.U3)
           ("sidetree:did-document++")%string).
  reflexivity.
Defined.

Lemma resolve_known_did_witness :
  exists info, JsMap.get (Sample.hash Sample.C) (opHashToInfo Sample.scenario6) = Some info.
Proof.
  apply (resolve_known_did (store := Sample.store) (docs := Sample.docs)
           3 "sidetree" (Sample.hash Sample.C) Sample.scenario6
           ("sidetree:did-document++")%string).
  reflexivity.
Defined.

(* ================================================================== *)
(** * Further properties of the Rooter *)

Lemma firstn_plus {A : Type} (n m : nat) : forall (l : list A),
  firstn (n + m) l = firstn n l ++ firstn m (skipn n l).
Proof.
  induction n as [|n IH]; intros l; simpl; [reflexivity|].
  destruct l as [|x l]; simpl.
  - now rewrite firstn_nil.
  - now rewrite IH.
Qed.

Section RooterMore.
Context {imports : RooterImports}.

(** X15.  A tick in which the ledger does not answer loses nothing: the
    error is caught, no operation leaves the queue, and [processing] is
    unset again. *)
Theorem rootOperations_ledger_failure (env : TickEnv) (this : Rooter) (e : exn) :
  processing this = false ->
  getLastBlock_response env = throw e ->
  rootOperations env this
  = (Normal tt, {| operations := operations this ++ getLastBlock_arrivals env;
                   processing := false |}).
Proof.
  intros Hidle Hblock. unfold rootOperations. rewrite Hidle.
  unfold try_catch_finally, rootOperations_body, bind.
  unfold set_processing at 1. cbv beta.
  rewrite (getBatch_throws _ _ _ Hblock). reflexivity.
Qed.

(** X16.  The queue is first in, first out across ticks: two successive
    drains, with operations added in between, hand out, in order and
    without gap or repetition, the oldest operations of the queue followed
    by the additions, and leave the rest. *)
Theorem getBatch_fifo_across_ticks (block1 block2 : Block.t) (added : list Buffer)
    (this : Rooter) :
  exists batch1 this1 batch2 this2,
    getBatch_drain block1 this = (Normal batch1, this1)
    /\ getBatch_drain block2 (fold_left (fun r x => add x r) added this1)
       = (Normal batch2, this2)
    /\ batch1 ++ batch2
       = List.map Some (firstn (List.length batch1 + List.length batch2)
                          (operations this ++ added))
    /\ operations this2
       = skipn (List.length batch1 + List.length batch2) (operations this ++ added).
Proof.
  rewrite getBatch_drain_spec.
  set (queue := operations this).
  set (n1 := batchSizeFor block1 queue).
  exists (List.map Some (firstn n1 queue)),
         {| operations := skipn n1 queue; processing := processing this |}.
  rewrite arrivals_added. cbn [operations processing].
  rewrite getBatch_drain_spec. cbn [operations processing].
  set (n2 := batchSizeFor block2 (skipn n1 queue ++ added)).
  do 2 eexists. split; [reflexivity|]. split; [reflexivity|].
  assert (Hn1 : (n1 <= List.length queue)%nat) by (unfold n1, batchSizeFor; lia).
  assert (Hn2 : (n2 <= List.length (skipn n1 queue ++ added))%nat)
    by (unfold n2, batchSizeFor; lia).
  assert (Hskip : skipn n1 (queue ++ added) = skipn n1 queue ++ added).
  { rewrite skipn_app. replace (n1 - List.length queue)%nat with 0%nat by lia.
    reflexivity. }
  assert (Hfirst : firstn n1 (queue ++ added) = firstn n1 queue).
  { rewrite firstn_app. replace (n1 - List.length queue)%nat with 0%nat by lia.
    simpl. apply app_nil_r. }
  rewrite !length_map, !length_firstn.
  replace (Nat.min n1 (List.length queue)) with n1 by lia.
  replace (Nat.min n2 (List.length (skipn n1 queue ++ added))) with n2 by lia.
  split.
  - rewrite firstn_plus, Hskip, Hfirst. now rewrite map_app.
  - rewrite Nat.add_comm, <- skipn_skipn, Hskip. reflexivity.
Qed.
End RooterMore.

Lemma rootOperations_ledger_failure_witness :
  rootOperations (imports := Sample.imports) Sample.ledgerDown Sample.threeQueued
  = (Normal tt,
     {| operations := [Buffer_from "a"; Buffer_from "b"; Buffer_from "c"; Buffer_from "late"];
        processing := false |}).
Proof.
  apply (rootOperations_ledger_failure (imports := Sample.imports) Sample.ledgerDown
           Sample.threeQueued (Error "ledger unavailable")); reflexivity.
Defined.

Section RooterEmpty.
Context {imports : RooterImports}.

(** X17.  A tick that finds nothing to batch, because the queue is empty
    or the protocol allows no operation, returns before any write: it
    leaves the queue as it is, unsets [processing], and does not depend on
    what the CAS or the ledger would answer to a write. *)
Theorem rootOperations_empty_batch (env : TickEnv) (this : Rooter) (latestBlock : Block.t) :
  processing this = false ->
  getLastBlock_response env = ok latestBlock ->
  batchSizeFor latestBlock (operations this ++ getLastBlock_arrivals env) = 0%nat ->
  rootOperations env this
  = (Returned, {| operations := operations this ++ getLastBlock_arrivals env;
                  processing := false |}).
Proof.
  intros Hidle Hblock Hzero. unfold rootOperations. rewrite Hidle.
  unfold try_catch_finally, rootOperations_body, bind.
  unfold set_processing at 1. cbv beta.
  rewrite (getBatch_spec _ _ latestBlock Hblock). cbn [operations processing].
  rewrite Hzero. reflexivity.
Qed.
End RooterEmpty.

Lemma rootOperations_empty_batch_witness :
  rootOperations (imports := Sample.imports) Sample.quiet newRooter
  = (Returned, newRooter).
Proof.
  apply (rootOperations_empty_batch (imports := Sample.imports) Sample.quiet newRooter
           (Block.mk 7)); reflexivity.
Defined.

Section ApplyEdge.
Context {crypto : Crypto}.

(** X18.  In a cache built by [apply] calls from the empty cache,
    [apply] returns for every operation that carries the four required
    properties, with [undefined] or with the hash of the operation: the
    [TypeError] of [applyVersionChainUpdates] cannot occur there. *)
Theorem apply_returns_in_built_cache (ops : list WriteOperation.t)
    (op : WriteOperation.t) :
  timestampOf op <> None ->
  fst (apply op (applyAll ops newDidCache)) = ok None
  \/ fst (apply op (applyAll ops newDidCache)) = ok (Some (getHash op)).
Proof.
  intros Hvalid.
  destruct (timestampOf op) as [ts|] eqn:Hts; [|now elim Hvalid].
  destruct (timestampOf_infoOf _ _ Hts) as (opInfo & Hinfo & _).
  rewrite (apply_valid _ _ _ Hinfo).
  destruct (apply_checked_inv op opInfo _ (applyAll_closed ops))
    as [(stored & _ & _ & ->)|(_ & -> & _)]; auto.
Qed.

Lemma apply_nextVersion_key op this :
  nextVersion (snd (apply op this)) = nextVersion this
  \/ exists prev, prev <> EmptyString
       /\ WriteOperation.previousOperationHash op = Some prev
       /\ nextVersion (snd (apply op this))
          = JsMap.set prev (getHash op) (nextVersion this).
Proof.
  destruct (apply_maps op this) as [_ [Hsame|(prev & Hprev & Hset)]]; [now left|].
  right. exists prev. apply chainPrev_Some in Hprev. tauto.
Qed.

(** X19.  An empty [previousOperationHash] counts as none: applying an
    operation that carries one leaves [nextVersion] as it was, and no
    sequence of calls from the empty cache files a link under the empty
    string. *)
Theorem apply_ignores_empty_predecessor :
  (forall op this,
      WriteOperation.previousOperationHash op = Some EmptyString ->
      nextVersion (snd (apply op this)) = nextVersion this)
  /\ (forall ops,
      JsMap.get EmptyString (nextVersion (applyAll ops newDidCache)) = None).
Proof.
  split.
  - intros op this Hempty.
    destruct (apply_nextVersion_key op this) as [Hsame|(prev & Hne & Hprev & _)];
      [exact Hsame|]. congruence.
  - induction ops as [|op ops IH] using rev_ind; [reflexivity|].
    rewrite applyAll_snoc.
    destruct (apply_nextVersion_key op (applyAll ops newDidCache))
      as [->|(prev & Hne & _ & ->)]; [exact IH|].
    rewrite JsMap_get_set_neq; [exact IH|exact Hne].
Qed.
End ApplyEdge.

Lemma apply_returns_in_built_cache_witness :
  fst (apply (crypto := Sample.crypto) Sample.orphan
         (applyAll (crypto := Sample.crypto)
            [Sample.C; Sample.U1; Sample.U2; Sample.U3] newDidCache))
  = ok (Some (Sample.hash Sample.orphan)).
Proof.
  assert (Hvalid : timestampOf Sample.orphan <> None) by discriminate.
  destruct (apply_returns_in_built_cache (crypto := Sample.crypto)
              [Sample.C; Sample.U1; Sample.U2; Sample.U3] Sample.orphan Hvalid) as [H|H].
  - vm_compute in H. discriminate.
  - exact H.
Defined.

Lemma apply_ignores_empty_predecessor_witness :
  nextVersion (snd (apply (crypto := Sample.crypto) Sample.rootless Sample.scenario6))
  = nextVersion Sample.scenario6.
Proof.
  apply (proj1 (apply_ignores_empty_predecessor (crypto := Sample.crypto))).
  reflexivity.
Defined.
